(** * string-interner 0.8: symbols and the [StringInterner]

    A shallow embedding of [src/symbol.rs] and [src/lib.rs].

    - Machine integers are [Z] with the width written out.  The target
      fixes the width of [usize] and whether arithmetic overflow is checked
      (debug build: [a + b] panics on overflow) or wraps (release build).
    - Operations that can panic or reach undefined behaviour return an
      [outcome].
    - The interner owns boxed strings ([Pin<Box<str>>]) living in a heap;
      its [HashMap<PinnedStr, S>] refers to them by address ([PinnedStr]
      is a raw pointer) and compares and hashes keys by the string they
      point to.  Hashing only affects performance, so the map is modelled
      as a finite map from the key's content to the stored key pointer and
      the symbol. *)

From Stdlib Require Import ZArith Lia.
From stdpp Require Import base gmap strings list fin_maps.

Open Scope Z_scope.

(** ** Targets and outcomes *)

Record Target := mkTarget {
  usize_bits : Z;          (** [usize::BITS]: 32 or 64 on [std] targets *)
  overflow_checks : bool   (** [true] in debug builds *)
}.

Definition usize_max (t : Target) : Z := 2 ^ usize_bits t - 1.

Inductive outcome (A : Type) : Type :=
| Done (a : A)
| Panic
| Undefined.
Arguments Done {A} a.
Arguments Panic {A}.
Arguments Undefined {A}.

Definition obind {A B} (o : outcome A) (f : A -> outcome B) : outcome B :=
  match o with
  | Done a => f a
  | Panic => Panic
  | Undefined => Undefined
  end.

Notation "'let*' x ':=' o 'in' k" := (obind o (fun x => k))
  (at level 200, x name, o at level 100, k at level 200).

(** [a + b] in a [w]-bit unsigned type. *)
Definition add_base (t : Target) (w a b : Z) : outcome Z :=
  if overflow_checks t && (2 ^ w <=? a + b) then Panic
  else Done ((a + b) mod 2 ^ w).

(** [x as $base_ty] for a [usize] value [x]: truncation to [w] bits. *)
Definition as_base (w x : Z) : Z := x mod 2 ^ w.

(** ** [src/symbol.rs] *)

(** The three instantiations of [gen_symbol_for!]. *)
Inductive SymbolKind := SymbolU16 | SymbolU32 | SymbolUsize.

(** [$base_ty] of each instantiation, in bits. *)
Definition base_bits (t : Target) (k : SymbolKind) : Z :=
  match k with
  | SymbolU16 => 16
  | SymbolU32 => 32
  | SymbolUsize => usize_bits t
  end.

(** [struct $name { value: $non_zero }]: a non-zero integer is a
    [positive]. *)
Record Symbol := mkSymbol { value : positive }.

Global Instance Symbol_eq_dec : EqDecision Symbol.
Proof. solve_decision. Defined.

(** [<$non_zero>::new_unchecked(x)]: undefined behaviour when [x = 0]. *)
Definition new_unchecked (x : Z) : outcome Symbol :=
  match x with
  | Zpos p => Done (mkSymbol p)
  | _ => Undefined
  end.

(** [Symbol::try_from_usize] as generated by [gen_symbol_for!]. *)
Definition try_from_usize (t : Target) (k : SymbolKind) (index : Z)
  : outcome (option Symbol) :=
  if index <? usize_max t then
    let* v := add_base t (base_bits t k) (as_base (base_bits t k) index) 1 in
    let* s := new_unchecked v in
    Done (Some s)
  else Done None.

(** [Symbol::to_usize]: [self.value.get() as usize - 1].  The value is
    non-zero and at most [base_bits <= usize_bits] wide, so neither the
    cast nor the subtraction wraps. *)
Definition to_usize (s : Symbol) : Z := Zpos (value s) - 1.

(** [expect_valid_symbol]: [S::try_from_usize(index).expect(..)]. *)
Definition expect_valid_symbol (t : Target) (k : SymbolKind) (index : Z)
  : outcome Symbol :=
  let* o := try_from_usize t k index in
  match o with
  | Some s => Done s
  | None => Panic
  end.

(** Modelled from the spec: [S::from_usize], which [make_symbol], [clone]
    and the iterators of [src/lib.rs] call, is not declared by the
    [Symbol] trait in [src/symbol.rs].  The spec describes it as the
    internal helper that converts an index to a symbol and aborts
    irrecoverably when the index is out of range, which is
    [expect_valid_symbol]. *)
Definition from_usize (t : Target) (k : SymbolKind) (index : Z)
  : outcome Symbol :=
  expect_valid_symbol t k index.

Definition t64_debug : Target := mkTarget 64 true.
Definition t64_release : Target := mkTarget 64 false.

(** ** The heap of boxed strings *)

(** Addresses of [Box<str>] allocations, and the heap they live in.
    Strings are never mutated in place, so a cell keeps its content. *)
Abbreviation loc := N (only parsing).
Abbreviation Heap := (gmap N string).

(** [Box::new]: a fresh cell. *)
Definition alloc (h : Heap) (s : string) : loc * Heap :=
  let p := fresh (dom h) in (p, <[p := s]> h).

(** The state monad of heap-allocating operations that may panic. *)
Definition M (A : Type) : Type := Heap -> outcome (A * Heap).

(** ** [src/lib.rs]: [StringInterner] *)

(** [map: HashMap<PinnedStr, S, H>] is keyed by the content of the
    pointed-to [str]; each entry keeps its [PinnedStr] key and the symbol.
    [values: Vec<Pin<Box<str>>>] is the list of box addresses. *)
Record StringInterner := mkInterner {
  map : gmap string (loc * Symbol);
  values : list loc
}.

(** [HashMap::insert(key, v)]: an existing equal key is kept, only the
    value is replaced. *)
Definition hm_insert (c : string) (key : loc) (v : Symbol)
    (m : gmap string (loc * Symbol)) : gmap string (loc * Symbol) :=
  match m !! c with
  | Some (old, _) => <[c := (old, v)]> m
  | None => <[c := (key, v)]> m
  end.

(** [StringInterner::new] (and [with_capacity], [with_hasher],
    [with_capacity_and_hasher]: capacities and hashers are not modelled). *)
Definition new : StringInterner := {| map := ∅; values := [] |}.

Definition with_capacity (cap : Z) : StringInterner := new.

(** [len]: [self.values.len()]. *)
Definition len (st : StringInterner) : nat := length (values st).

Definition is_empty (st : StringInterner) : bool := Nat.eqb (len st) 0.

(** [make_symbol]: [S::from_usize(self.len())]. *)
Definition make_symbol (t : Target) (k : SymbolKind) (st : StringInterner)
  : outcome Symbol :=
  from_usize t k (Z.of_nat (len st)).

(** [intern]: make the symbol, box the string, push the box, insert the
    pinned reference into the map. *)
Definition intern (t : Target) (k : SymbolKind) (st : StringInterner)
    (new_val : string) : M (Symbol * StringInterner) := fun h =>
  let* new_id := make_symbol t k st in
  let '(new_ref, h') := alloc h new_val in
  Done ((new_id,
         {| map := hm_insert new_val new_ref new_id (map st);
            values := values st ++ [new_ref] |}), h').

(** [get_or_intern]: look the content up, intern on a miss. *)
Definition get_or_intern (t : Target) (k : SymbolKind) (st : StringInterner)
    (val : string) : M (Symbol * StringInterner) := fun h =>
  match map st !! val with
  | Some (_, sym) => Done ((sym, st), h)
  | None => intern t k st val h
  end.

(** [resolve]: [self.values.get(symbol.to_usize())], dereferencing the box. *)
Definition resolve (st : StringInterner) (h : Heap) (s : Symbol)
  : option string :=
  values st !! Z.to_nat (to_usize s) ≫= fun p => h !! p.

(** [get]: [self.map.get(&PinnedStr::from_str(val)).cloned()]. *)
Definition get (st : StringInterner) (val : string) : option Symbol :=
  snd <$> map st !! val.

(** [reserve] and [shrink_to_fit] only change capacities, which are not
    modelled: the map and the values are left as they are. *)
Definition reserve (additional : Z) (st : StringInterner) : StringInterner :=
  {| map := map st; values := values st |}.

Definition shrink_to_fit (st : StringInterner) : StringInterner :=
  {| map := map st; values := values st |}.

(** [self.values.clone()]: every [Pin<Box<str>>] is cloned into a fresh
    box with the same content. *)
Fixpoint clone_values (vs : list loc) : M (list loc) := fun h =>
  match vs with
  | [] => Done ([], h)
  | p :: vs' =>
      match h !! p with
      | None => Undefined
      | Some c =>
          let '(p', h') := alloc h c in
          let* r := clone_values vs' h' in
          let '(ps', h'') := r in
          Done (p' :: ps', h'')
      end
  end.

(** [map.extend(values.iter().enumerate().map(|(i, s)|
    (PinnedStr::from_str(s), S::from_usize(i))))], starting at index [i]. *)
Fixpoint clone_map (t : Target) (k : SymbolKind) (i : nat) (vs : list loc)
    (h : Heap) (m : gmap string (loc * Symbol))
  : outcome (gmap string (loc * Symbol)) :=
  match vs with
  | [] => Done m
  | p :: vs' =>
      let* s := from_usize t k (Z.of_nat i) in
      match h !! p with
      | None => Undefined
      | Some c => clone_map t k (S i) vs' h (hm_insert c p s m)
      end
  end.

(** [Clone for StringInterner]: clone the boxes, then rebuild the map from
    the cloned boxes. *)
Definition clone (t : Target) (k : SymbolKind) (st : StringInterner)
  : M StringInterner := fun h =>
  let* r := clone_values (values st) h in
  let '(values', h') := r in
  let* map' := clone_map t k 0 values' h' ∅ in
  Done ({| map := map'; values := values' |}, h').

(** [Extend::extend]: [for s in iter { self.get_or_intern(s); }]. *)
Fixpoint extend (t : Target) (k : SymbolKind) (st : StringInterner)
    (items : list string) : M StringInterner := fun h =>
  match items with
  | [] => Done (st, h)
  | s :: rest =>
      let* r := get_or_intern t k st s h in
      let '((_, st'), h') := r in
      extend t k st' rest h'
  end.

(** [FromIterator::from_iter]: [with_capacity(size_hint)], then [extend]. *)
Definition from_iter (t : Target) (k : SymbolKind) (items : list string)
  : M StringInterner :=
  extend t k (with_capacity (Z.of_nat (length items))) items.

(** The symbols returned by a sequence of [get_or_intern] calls. *)
Fixpoint intern_all (t : Target) (k : SymbolKind) (st : StringInterner)
    (items : list string) : M (list Symbol * StringInterner) := fun h =>
  match items with
  | [] => Done (([], st), h)
  | s :: rest =>
      let* r := get_or_intern t k st s h in
      let '((sym, st'), h') := r in
      let* r' := intern_all t k st' rest h' in
      let '((syms, st''), h'') := r' in
      Done ((sym :: syms, st''), h'')
  end.

(** ** The symbol of an index *)

(** The symbol whose [to_usize] is [i]. *)
Definition sym_of (i : Z) : Symbol := mkSymbol (Z.to_pos (i + 1)).

(** ** The representation invariant *)

(** [add_first cs x]: [cs] with [x] appended unless already present. *)
Definition add_first (cs : list string) (x : string) : list string :=
  if decide (x ∈ cs) then cs else cs ++ [x].

(** [inv_c t k st h cs]: the boxes of [st] hold the distinct strings [cs]
    in [h], fewer than [2 ^ base_bits] of them, and the map has exactly one
    entry per box, keyed by its content, holding the box itself and the
    symbol of its position. *)
Definition inv_c (t : Target) (k : SymbolKind) (st : StringInterner)
    (h : Heap) (cs : list string) : Prop :=
  Forall2 (fun p c => h !! p = Some c) (values st) cs /\
  NoDup cs /\
  Z.of_nat (length cs) < 2 ^ base_bits t k /\
  (forall c e, map st !! c = Some e <->
     exists i, values st !! i = Some e.1 /\ cs !! i = Some c /\
               to_usize e.2 = Z.of_nat i).

(** ** First-seen order *)

(** The spec's first-seen order: each item once, where it first occurs. *)
Definition first_seen (items : list string) : list string :=
  fold_left add_first items [].

(** ** The interner's correspondence property *)

(** The map and the values correspond one to one: equal sizes, each box at
    position [i] has the map entry keyed by its content, holding that box
    and the symbol of [i], and each map entry is such an entry. *)
Definition corresponds (st : StringInterner) (h : Heap) : Prop :=
  size (map st) = length (values st) /\
  (forall i, (i < length (values st))%nat ->
     exists p c s, values st !! i = Some p /\ h !! p = Some c /\
       map st !! c = Some (p, s) /\ to_usize s = Z.of_nat i) /\
  (forall c e, map st !! c = Some e ->
     exists i, values st !! i = Some e.1 /\ h !! e.1 = Some c /\
       to_usize e.2 = Z.of_nat i).

(** ** Reachable interners *)

(** The interner states a program can build with the public API, together
    with the heap: [new] (and the other constructors), [get_or_intern],
    [clone], [reserve] and [shrink_to_fit]; [get], [resolve], [len] and the
    iterators do not change the state.  Allocations made elsewhere in the
    program (another interner, a clone) only add fresh heap cells. *)
Inductive reachable (t : Target) (k : SymbolKind) : StringInterner -> Heap -> Prop :=
| reach_new (h : Heap) : reachable t k new h
| reach_get_or_intern (st st' : StringInterner) (h h' : Heap) (val : string) (s : Symbol) :
    reachable t k st h -> get_or_intern t k st val h = Done ((s, st'), h') ->
    reachable t k st' h'
| reach_clone (st st' : StringInterner) (h h' : Heap) :
    reachable t k st h -> clone t k st h = Done (st', h') -> reachable t k st' h'
| reach_reserve (st : StringInterner) (h : Heap) (additional : Z) :
    reachable t k st h -> reachable t k (reserve additional st) h
| reach_shrink_to_fit (st : StringInterner) (h : Heap) :
    reachable t k st h -> reachable t k (shrink_to_fit st) h
| reach_heap (st : StringInterner) (h h' : Heap) :
    reachable t k st h -> h ⊆ h' -> reachable t k st h'.

(** ** A [SymbolU16] interner filled to its width *)

(** Two-byte names [name_of i] for [0 <= i < 65535], all distinct. *)
Definition name_of (i : Z) : string :=
  String (Ascii.ascii_of_N (Z.to_N (i mod 256)))
    (String (Ascii.ascii_of_N (Z.to_N (i / 256))) EmptyString).

Definition names_u16 : list string := name_of <$> seqZ 0 65535.

(** ** Further operations of [src/symbol.rs] and [src/lib.rs] *)

(** [#[derive(PartialOrd, Ord)]] on [struct $name { value: $non_zero }]:
    symbols compare by their non-zero value. *)
Definition symbol_cmp (s1 s2 : Symbol) : comparison :=
  Pos.compare (value s1) (value s2).

(** [resolve_unchecked]: [self.values.get_unchecked(symbol.to_usize())],
    dereferencing the box; [get_unchecked] out of bounds is undefined
    behaviour. *)
Definition resolve_unchecked (st : StringInterner) (h : Heap) (s : Symbol)
  : outcome string :=
  match values st !! Z.to_nat (to_usize s) with
  | Some p =>
      match h !! p with
      | Some c => Done c
      | None => Undefined
      end
  | None => Undefined
  end.

(** The strings the boxes [vs] point to: [Pin<Box<str>>] compares (and
    [Vec] compares element-wise) by the pointed-to [str]. *)
Definition contents (h : Heap) (vs : list loc) : list (option string) :=
  (fun p => h !! p) <$> vs.

(** [PartialEq for StringInterner]:
    [self.len() == rhs.len() && self.values == rhs.values]. *)
Definition interner_eq (st rhs : StringInterner) (h : Heap) : bool :=
  Nat.eqb (len st) (len rhs) &&
  bool_decide (contents h (values st) = contents h (values rhs)).

(** [Iter]: [interner.values.iter().enumerate()], each [next] yielding
    [(S::from_usize(num), boxed_str.as_ref().get_ref())].  [iter_from i vs]
    is the sequence of items [next] returns, from index [i] on, until it
    returns [None]. *)
Fixpoint iter_from (t : Target) (k : SymbolKind) (i : nat) (vs : list loc)
    (h : Heap) : outcome (list (Symbol * string)) :=
  match vs with
  | [] => Done []
  | p :: vs' =>
      let* s := from_usize t k (Z.of_nat i) in
      match h !! p with
      | None => Undefined
      | Some c =>
          let* rest := iter_from t k (S i) vs' h in
          Done ((s, c) :: rest)
      end
  end.

(** [StringInterner::iter]: [Iter::new(self)]. *)
Definition iter (t : Target) (k : SymbolKind) (st : StringInterner) (h : Heap)
  : outcome (list (Symbol * string)) :=
  iter_from t k 0 (values st) h.

(** [Values]: [interner.values.iter()], each [next] yielding
    [boxed_str.as_ref().get_ref()]. *)
Fixpoint values_from (vs : list loc) (h : Heap) : outcome (list string) :=
  match vs with
  | [] => Done []
  | p :: vs' =>
      match h !! p with
      | None => Undefined
      | Some c =>
          let* rest := values_from vs' h in
          Done (c :: rest)
      end
  end.

(** [StringInterner::iter_values]: [Values::new(self)]. *)
Definition iter_values (st : StringInterner) (h : Heap) : outcome (list string) :=
  values_from (values st) h.

(** The pairs of the symbol of index [i], [i + 1], ... with [cs]. *)
Fixpoint pairs_from (i : nat) (cs : list string) : list (Symbol * string) :=
  match cs with
  | [] => []
  | c :: cs' => (sym_of (Z.of_nat i), c) :: pairs_from (S i) cs'
  end.

(** A concrete interner: [from_iter] over four distinct strings. *)
Definition ex_from_iter : outcome (StringInterner * Heap) :=
  from_iter t64_debug SymbolU32 ["Earth"; "Water"; "Fire"; "Air"]%string ∅.

Definition ex_st : StringInterner :=
  match ex_from_iter with Done (st, _) => st | _ => new end.

Definition ex_h : Heap :=
  match ex_from_iter with Done (_, h) => h | _ => ∅ end.

(** ** Evaluations *)

Example try_from_usize_u16_0 :
  try_from_usize t64_release SymbolU16 0 = Done (Some (mkSymbol 1)).
Proof. reflexivity. Qed.

Example intern_abac :
  match intern_all t64_debug SymbolU32 new ["a"; "b"; "a"; "c"]%string ∅ with
  | Done ((syms, st), _) => (to_usize <$> syms, len st)
  | _ => ([], 0%nat)
  end = ([0; 1; 0; 2], 3%nat).
Proof. vm_compute. reflexivity. Qed.

(** ** Lemmas about symbols *)

Lemma to_usize_sym_of (i : Z) : 0 <= i -> to_usize (sym_of i) = i.
Proof. intros Hi. unfold to_usize, sym_of. simpl. rewrite Z2Pos.id; lia. Qed.

Lemma to_usize_inj (s1 s2 : Symbol) : to_usize s1 = to_usize s2 -> s1 = s2.
Proof.
  destruct s1 as [v1], s2 as [v2]. unfold to_usize. simpl. intros H.
  f_equal. apply Pos2Z.inj. lia.
Qed.

Lemma to_usize_nonneg (s : Symbol) : 0 <= to_usize s.
Proof. unfold to_usize. lia. Qed.

Lemma sym_of_to_usize (s : Symbol) : sym_of (to_usize s) = s.
Proof. apply to_usize_inj. rewrite to_usize_sym_of; [done | apply to_usize_nonneg]. Qed.

Lemma base_bits_range (t : Target) (k : SymbolKind) :
  32 <= usize_bits t -> 16 <= base_bits t k <= usize_bits t.
Proof. destruct k; simpl; lia. Qed.

Lemma pow_base_pos (t : Target) (k : SymbolKind) : 0 <= base_bits t k -> 0 < 2 ^ base_bits t k.
Proof. intros. apply Z.pow_pos_nonneg; lia. Qed.

Lemma try_from_usize_ok (t : Target) (k : SymbolKind) (i : Z) :
  32 <= usize_bits t -> 0 <= i < 2 ^ base_bits t k - 1 ->
  try_from_usize t k i = Done (Some (sym_of i)).
Proof.
  intros Ht Hi. pose proof (base_bits_range t k Ht) as Hw.
  assert (2 ^ base_bits t k <= 2 ^ usize_bits t) by (apply Z.pow_le_mono_r; lia).
  unfold try_from_usize, usize_max.
  rewrite (proj2 (Z.ltb_lt _ _)) by lia.
  unfold as_base. rewrite Z.mod_small by lia. unfold add_base.
  replace (2 ^ base_bits t k <=? i + 1) with false by (symmetry; apply Z.leb_gt; lia).
  rewrite andb_false_r. cbn [obind]. rewrite Z.mod_small by lia.
  unfold new_unchecked, sym_of. destruct (i + 1) eqn:E; try lia. reflexivity.
Qed.

Lemma from_usize_ok (t : Target) (k : SymbolKind) (i : Z) :
  32 <= usize_bits t -> 0 <= i < 2 ^ base_bits t k - 1 ->
  from_usize t k i = Done (sym_of i).
Proof.
  intros Ht Hi. unfold from_usize, expect_valid_symbol.
  rewrite try_from_usize_ok by done. reflexivity.
Qed.

(** Whatever the target, a successful [from_usize] on an index below
    [2 ^ base_bits] is the symbol of that index, and the index has a
    successor below [2 ^ base_bits]. *)
Lemma from_usize_done (t : Target) (k : SymbolKind) (i : Z) (s : Symbol) :
  0 <= base_bits t k -> 0 <= i < 2 ^ base_bits t k ->
  from_usize t k i = Done s -> to_usize s = i /\ i + 1 < 2 ^ base_bits t k.
Proof.
  intros Hw Hi. unfold from_usize, expect_valid_symbol, try_from_usize.
  destruct (i <? usize_max t); [| discriminate].
  unfold as_base. rewrite Z.mod_small by lia. unfold add_base.
  destruct (2 ^ base_bits t k <=? i + 1) eqn:Eo.
  - apply Z.leb_le in Eo. assert (i + 1 = 2 ^ base_bits t k) as -> by lia.
    rewrite Z.mod_same by lia.
    destruct (overflow_checks t); discriminate.
  - apply Z.leb_gt in Eo. rewrite andb_false_r. cbn [obind].
    rewrite Z.mod_small by lia. unfold new_unchecked.
    destruct (i + 1) eqn:E; try lia. cbn. intros Hs. injection Hs as <-.
    unfold to_usize. simpl. lia.
Qed.

(** ** Lemmas about the invariant *)

Lemma fresh_None (h : Heap) : h !! fresh (dom h) = None.
Proof. apply not_elem_of_dom_1, is_fresh. Qed.

Lemma alloc_subseteq (h : Heap) (c : string) : h ⊆ <[fresh (dom h) := c]> h.
Proof. apply insert_subseteq, fresh_None. Qed.

Lemma Forall2_heap_weaken (h h' : Heap) (ps : list loc) (cs : list string) :
  h ⊆ h' -> Forall2 (fun p c => h !! p = Some c) ps cs ->
  Forall2 (fun p c => h' !! p = Some c) ps cs.
Proof. intros Hs HF. eapply Forall2_impl; [exact HF |]. intros p c Hp. eapply lookup_weaken; [exact Hp | exact Hs]. Qed.

Lemma inv_new (t : Target) (k : SymbolKind) (h : Heap) :
  0 <= base_bits t k -> inv_c t k new h [].
Proof.
  intros Hw. split; [constructor | split; [constructor | split]].
  - simpl. apply Z.pow_pos_nonneg; lia.
  - intros c e. simpl. rewrite lookup_empty. split; [discriminate |].
    intros (i & Hi & _). rewrite lookup_nil in Hi. discriminate.
Qed.

Lemma inv_weaken (t : Target) (k : SymbolKind) (st : StringInterner)
    (h h' : Heap) (cs : list string) :
  inv_c t k st h cs -> h ⊆ h' -> inv_c t k st h' cs.
Proof.
  intros (HF & Hnd & Hlen & Hm) Hs. repeat split; try done.
  - by eapply Forall2_heap_weaken.
  - by apply Hm.
  - by apply Hm.
Qed.

Lemma inv_lookup_None (t : Target) (k : SymbolKind) (st : StringInterner)
    (h : Heap) (cs : list string) (val : string) :
  inv_c t k st h cs -> map st !! val = None -> val ∉ cs.
Proof.
  intros (HF & _ & _ & Hm) Hv Hin.
  apply list_elem_of_lookup in Hin as [i Hi].
  destruct (Forall2_lookup_r _ _ _ _ _ HF Hi) as (p & Hp & _).
  assert (map st !! val = Some (p, sym_of (Z.of_nat i))) as Hs.
  { apply Hm. exists i. simpl. rewrite to_usize_sym_of by lia. done. }
  congruence.
Qed.

Lemma inv_base_bits (t : Target) (k : SymbolKind) (st : StringInterner)
    (h : Heap) (cs : list string) :
  inv_c t k st h cs -> 0 <= base_bits t k.
Proof.
  intros (_ & _ & Hlen & _). destruct (Z.neg_nonneg_cases (base_bits t k)) as [Hn|]; [| done].
  rewrite Z.pow_neg_r in Hlen by done. lia.
Qed.

Lemma intern_inv (t : Target) (k : SymbolKind) (st st' : StringInterner)
    (h h' : Heap) (cs : list string) (val : string) (s : Symbol) :
  inv_c t k st h cs -> map st !! val = None ->
  intern t k st val h = Done ((s, st'), h') ->
  inv_c t k st' h' (cs ++ [val]) /\ to_usize s = Z.of_nat (length cs) /\
  h ⊆ h' /\ values st' = values st ++ [fresh (dom h)].
Proof.
  intros Hinv Hv Hi. pose proof (inv_base_bits _ _ _ _ _ Hinv) as Hw.
  pose proof (inv_lookup_None _ _ _ _ _ _ Hinv Hv) as Hnin.
  destruct Hinv as (HF & Hnd & Hlen & Hm).
  pose proof (Forall2_length _ _ _ HF) as Hl.
  unfold intern, make_symbol, len, alloc in Hi.
  destruct (from_usize t k (Z.of_nat (length (values st)))) as [s0| |] eqn:Hf;
    try discriminate.
  cbn [obind] in Hi. injection Hi as <- <- <-.
  apply from_usize_done in Hf as [Hs Hlt]; [| done | lia].
  set (p := fresh (dom h)). assert (Hp : h !! p = None) by apply fresh_None.
  unfold hm_insert. simpl. rewrite Hv.
  split; [| split; [lia | split; [apply alloc_subseteq | done]]].
  split; [| split; [| split]].
  - apply Forall2_app; [| constructor; [apply lookup_insert_eq | constructor]].
    eapply Forall2_impl; [exact HF |]. intros q c Hq.
    rewrite lookup_insert_ne; [done |]. intros ->. congruence.
  - apply NoDup_app. split; [done | split; [| apply NoDup_singleton]].
    intros x Hx Hx'. apply list_elem_of_singleton in Hx'. subst. done.
  - rewrite length_app. simpl. lia.
  - intros c [q sym]. simpl. destruct (decide (c = val)) as [->|Hne].
    + rewrite lookup_insert_eq. split.
      * intros [= <- <-]. exists (length cs). rewrite <- Hl at 1.
        rewrite !list_lookup_middle by done. split; [done | split; [done | lia]].
      * intros (i & Hq & Hc & Hu). apply lookup_snoc_Some in Hc as [[_ Hc] | [-> _]].
        { destruct Hnin. by eapply list_elem_of_lookup_2. }
        rewrite <- Hl, list_lookup_middle in Hq by done. injection Hq as <-.
        f_equal; f_equal. apply to_usize_inj. lia.
    + rewrite lookup_insert_ne by congruence. rewrite Hm. simpl.
      split; intros (i & Hq & Hc & Hu); exists i.
      * split; [by apply lookup_app_l_Some |].
        split; [by apply lookup_app_l_Some | done].
      * apply lookup_snoc_Some in Hc as [[Hi Hc] | [_ ?]]; [| congruence].
        rewrite lookup_app_l in Hq by lia. done.
Qed.

Lemma get_or_intern_inv (t : Target) (k : SymbolKind) (st st' : StringInterner)
    (h h' : Heap) (cs : list string) (val : string) (s : Symbol) :
  inv_c t k st h cs ->
  get_or_intern t k st val h = Done ((s, st'), h') ->
  inv_c t k st' h' (add_first cs val) /\ h ⊆ h' /\
  add_first cs val !! Z.to_nat (to_usize s) = Some val /\
  (val ∉ cs -> to_usize s = Z.of_nat (length cs)).
Proof.
  intros Hinv Hg. unfold get_or_intern in Hg.
  destruct (map st !! val) as [[q sym]|] eqn:Hv.
  - injection Hg as <- <- <-.
    destruct Hinv as (HF & Hnd & Hlen & Hm) eqn:Hinv'.
    destruct (proj1 (Hm val (q, sym)) Hv) as (i & Hq & Hc & Hu). simpl in *.
    assert (Hin : val ∈ cs) by (by eapply list_elem_of_lookup_2).
    unfold add_first. rewrite decide_True by done.
    split; [done | split; [done | split]].
    + rewrite Hu, Nat2Z.id. done.
    + done.
  - pose proof (inv_lookup_None _ _ _ _ _ _ Hinv Hv) as Hnin.
    destruct (intern_inv _ _ _ _ _ _ _ _ _ Hinv Hv Hg) as (Hinv' & Hs & Hsub & _).
    unfold add_first. rewrite decide_False by done.
    split; [done | split; [done | split]].
    + rewrite Hs, Nat2Z.id. apply list_lookup_middle. done.
    + intros _. done.
Qed.

(** A successful [get_or_intern] leaves its argument in the map, bound to
    the returned symbol; other entries are kept. *)
Lemma get_or_intern_lookup (t : Target) (k : SymbolKind) (st st' : StringInterner)
    (h h' : Heap) (val : string) (s : Symbol) :
  get_or_intern t k st val h = Done ((s, st'), h') ->
  (exists q, map st' !! val = Some (q, s)) /\
  (forall c e, map st !! c = Some e -> map st' !! c = Some e).
Proof.
  unfold get_or_intern. destruct (map st !! val) as [[q sym]|] eqn:Hv.
  - intros [= <- <- <-]. eauto.
  - unfold intern, make_symbol, alloc.
    destruct (from_usize t k (Z.of_nat (len st))) as [s0| |]; try discriminate.
    cbn [obind]. intros [= <- <- <-]. unfold hm_insert. simpl. rewrite Hv.
    split; [eexists; apply lookup_insert_eq |].
    intros c e Hc. rewrite lookup_insert_ne; [done | congruence].
Qed.

(** ** [clone] *)

Lemma clone_values_spec (vs : list loc) (cs : list string) (h : Heap) :
  Forall2 (fun p c => h !! p = Some c) vs cs ->
  exists ps h', clone_values vs h = Done (ps, h') /\
    Forall2 (fun p c => h' !! p = Some c) ps cs /\ h ⊆ h' /\
    (forall p, p ∈ ps -> h !! p = None).
Proof.
  revert cs h. induction vs as [|p vs IH]; intros cs h HF.
  - inversion HF; subst. exists [], h. repeat split; [constructor | done |].
    intros p Hp. by apply not_elem_of_nil in Hp.
  - inversion HF as [|? c ? cs' Hp HF']; subst. simpl. rewrite Hp. unfold alloc.
    set (p1 := fresh (dom h)). set (h1 := <[p1 := c]> h).
    assert (Hsub1 : h ⊆ h1) by apply alloc_subseteq.
    destruct (IH cs' h1) as (ps & h2 & Hc & HF2 & Hsub2 & Hfr).
    { by eapply Forall2_heap_weaken. }
    rewrite Hc. cbn [obind]. exists (p1 :: ps), h2.
    split; [done | split; [| split]].
    + constructor; [| done]. eapply lookup_weaken; [| exact Hsub2].
      apply lookup_insert_eq.
    + by transitivity h1.
    + intros q Hq. apply elem_of_cons in Hq as [-> | Hq].
      * apply fresh_None.
      * eapply lookup_weaken_None; [apply Hfr, Hq | exact Hsub1].
Qed.

(** What a successful [clone_map] builds: the entries of [m] and one
    entry per box of [ps], for boxes [i], [i + 1], ... *)
Lemma clone_map_done (t : Target) (k : SymbolKind) (h : Heap)
    (ps : list loc) (cs : list string) (i : nat)
    (m m' : gmap string (loc * Symbol)) :
  0 <= base_bits t k ->
  Forall2 (fun p c => h !! p = Some c) ps cs -> NoDup cs ->
  (forall c, c ∈ cs -> m !! c = None) ->
  Z.of_nat (i + length cs) < 2 ^ base_bits t k ->
  clone_map t k i ps h m = Done m' ->
  forall c e, m' !! c = Some e <->
    m !! c = Some e \/
    exists j, ps !! j = Some e.1 /\ cs !! j = Some c /\
              to_usize e.2 = Z.of_nat (i + j).
Proof.
  intros Hw HF. revert i m. induction HF as [|p c0 ps cs Hp HF IH];
    intros i m Hnd Hfree Hlen Hc c e.
  - injection Hc as <-. split; [by left |].
    intros [? | (j & Hj & _)]; [done |]. rewrite lookup_nil in Hj. discriminate.
  - simpl in Hc. destruct (from_usize t k (Z.of_nat i)) as [s| |] eqn:Hf;
      try discriminate.
    cbn [obind] in Hc. rewrite Hp in Hc.
    simpl in Hlen. apply from_usize_done in Hf as [Hs _]; [| done | lia].
    apply NoDup_cons in Hnd as [Hc0 Hnd].
    assert (Hm0 : m !! c0 = None) by (apply Hfree; left).
    unfold hm_insert in Hc. rewrite Hm0 in Hc.
    assert (Hfree' : forall c', c' ∈ cs -> <[c0 := (p, s)]> m !! c' = None).
    { intros c' Hc'. rewrite lookup_insert_ne by (intros ->; done).
      apply Hfree. by right. }
    rewrite (IH (S i) _ Hnd Hfree' ltac:(lia) Hc).
    destruct e as [q sym]. simpl. split.
    + intros [Hin | (j & Hq & Hc' & Hu)].
      * destruct (decide (c = c0)) as [->|Hne].
        { rewrite lookup_insert_eq in Hin. injection Hin as <- <-.
          right. exists 0%nat. simpl. split; [done | split; [done | lia]]. }
        rewrite lookup_insert_ne in Hin by congruence. by left.
      * right. exists (S j). simpl. split; [done | split; [done | lia]].
    + intros [Hin | ([|j] & Hq & Hc' & Hu)].
      * left. rewrite lookup_insert_ne; [done |]. intros ->. congruence.
      * simpl in Hq, Hc'. injection Hq as <-. injection Hc' as <-.
        left. rewrite lookup_insert_eq. do 2 f_equal. apply to_usize_inj. lia.
      * right. exists j. simpl in Hq, Hc'. split; [done | split; [done | lia]].
Qed.

Lemma clone_map_ok (t : Target) (k : SymbolKind) (h : Heap)
    (ps : list loc) (cs : list string) (i : nat)
    (m : gmap string (loc * Symbol)) :
  32 <= usize_bits t ->
  Forall2 (fun p c => h !! p = Some c) ps cs ->
  Z.of_nat (i + length cs) < 2 ^ base_bits t k ->
  exists m', clone_map t k i ps h m = Done m'.
Proof.
  intros Ht HF. revert i m. induction HF as [|p c0 ps cs Hp HF IH]; intros i m Hlen.
  - eexists. reflexivity.
  - simpl in Hlen. simpl. rewrite from_usize_ok by (done || lia).
    cbn [obind]. rewrite Hp. apply IH. lia.
Qed.

Lemma clone_inv (t : Target) (k : SymbolKind) (st st' : StringInterner)
    (h h' : Heap) (cs : list string) :
  inv_c t k st h cs -> clone t k st h = Done (st', h') ->
  inv_c t k st' h' cs /\ h ⊆ h' /\ (forall p, p ∈ values st' -> h !! p = None).
Proof.
  intros Hinv Hc. pose proof (inv_base_bits _ _ _ _ _ Hinv) as Hw.
  destruct Hinv as (HF & Hnd & Hlen & Hm).
  destruct (clone_values_spec _ _ _ HF) as (ps & h1 & Hcv & HF1 & Hsub & Hfr).
  unfold clone in Hc. rewrite Hcv in Hc. cbn [obind] in Hc.
  destruct (clone_map t k 0 ps h1 ∅) as [m'| |] eqn:Hcm; try discriminate.
  cbn [obind] in Hc. injection Hc as <- <-.
  split; [| split; [done | exact Hfr]].
  split; [done | split; [done | split; [done |]]].
  intros c e. simpl. rewrite (clone_map_done t k h1 ps cs 0 ∅ m' Hw HF1 Hnd)
    by (done || (intros; apply lookup_empty)).
  rewrite lookup_empty. split.
  - intros [? | (j & ?)]; [discriminate | exists j; done].
  - intros (j & ?). right. exists j. done.
Qed.

Lemma clone_ok (t : Target) (k : SymbolKind) (st : StringInterner)
    (h : Heap) (cs : list string) :
  32 <= usize_bits t -> inv_c t k st h cs ->
  exists st' h', clone t k st h = Done (st', h').
Proof.
  intros Ht (HF & Hnd & Hlen & Hm).
  destruct (clone_values_spec _ _ _ HF) as (ps & h1 & Hcv & HF1 & Hsub & Hfr).
  destruct (clone_map_ok t k h1 ps cs 0 ∅ Ht HF1) as [m' Hcm]; [lia |].
  unfold clone. rewrite Hcv. cbn [obind]. rewrite Hcm. cbn [obind]. eauto.
Qed.

(** ** Reachable interners satisfy the invariant *)

Lemma reachable_inv (t : Target) (k : SymbolKind) (st : StringInterner) (h : Heap) :
  32 <= usize_bits t -> reachable t k st h -> exists cs, inv_c t k st h cs.
Proof.
  intros Ht Hr. induction Hr as [h | st st' h h' val s Hr IH Hg
    | st st' h h' Hr IH Hc | st h n Hr IH | st h Hr IH | st h h' Hr IH Hs].
  - exists []. apply inv_new. pose proof (base_bits_range t k Ht). lia.
  - destruct IH as [cs Hi]. exists (add_first cs val).
    by destruct (get_or_intern_inv _ _ _ _ _ _ _ _ _ Hi Hg).
  - destruct IH as [cs Hi]. exists cs. by destruct (clone_inv _ _ _ _ _ _ _ Hi Hc).
  - destruct IH as [cs Hi]. exists cs. exact Hi.
  - destruct IH as [cs Hi]. exists cs. exact Hi.
  - destruct IH as [cs Hi]. exists cs. by eapply inv_weaken.
Qed.

(** ** [resolve] and [get] under the invariant *)

Lemma inv_resolve (t : Target) (k : SymbolKind) (st : StringInterner)
    (h : Heap) (cs : list string) (s : Symbol) :
  inv_c t k st h cs -> resolve st h s = cs !! Z.to_nat (to_usize s).
Proof.
  intros (HF & _ & _ & _). unfold resolve.
  set (n := Z.to_nat (to_usize s)).
  destruct (values st !! n) as [p|] eqn:Hp.
  - destruct (Forall2_lookup_l _ _ _ _ _ HF Hp) as (c & Hc & Hpc). rewrite Hc. exact Hpc.
  - simpl. symmetry. apply lookup_ge_None. apply lookup_ge_None in Hp.
    rewrite <- (Forall2_length _ _ _ HF). done.
Qed.

Lemma inv_get (t : Target) (k : SymbolKind) (st : StringInterner)
    (h : Heap) (cs : list string) (x : string) (s : Symbol) :
  inv_c t k st h cs -> get st x = Some s <-> cs !! Z.to_nat (to_usize s) = Some x.
Proof.
  intros (HF & _ & _ & Hm). unfold get. split.
  - destruct (map st !! x) as [[q sym]|] eqn:Hx; simpl; [| discriminate].
    intros [= <-]. destruct (proj1 (Hm x (q, sym)) Hx) as (i & _ & Hc & Hu).
    simpl in Hu. rewrite Hu, Nat2Z.id. done.
  - intros Hc. destruct (Forall2_lookup_r _ _ _ _ _ HF Hc) as (q & Hq & _).
    assert (map st !! x = Some (q, s)) as ->; [| done].
    apply Hm. exists (Z.to_nat (to_usize s)). simpl.
    split; [done | split; [done |]]. rewrite Z2Nat.id; [done | apply to_usize_nonneg].
Qed.

(** ** [extend] and [from_iter] *)

Lemma length_add_first (cs : list string) (x : string) :
  (length cs <= length (add_first cs x))%nat.
Proof. unfold add_first. case_decide; [done | rewrite length_app; simpl; lia]. Qed.

Lemma length_fold_add_first (items cs : list string) :
  (length cs <= length (fold_left add_first items cs))%nat.
Proof.
  revert cs. induction items as [|x items IH]; intros cs; simpl; [done |].
  etransitivity; [apply (length_add_first cs x) | apply IH].
Qed.

Lemma fold_add_first_NoDup (items cs : list string) :
  NoDup (cs ++ items) -> fold_left add_first items cs = cs ++ items.
Proof.
  revert cs. induction items as [|x items IH]; intros cs Hnd; simpl.
  - by rewrite app_nil_r.
  - assert (x ∉ cs) as Hx.
    { apply NoDup_app in Hnd as (_ & Hd & _). intros Hin.
      apply (Hd x Hin). by left. }
    unfold add_first at 2. rewrite decide_False by done.
    rewrite IH; [by rewrite <- app_assoc |]. by rewrite <- app_assoc.
Qed.

Lemma get_or_intern_ok (t : Target) (k : SymbolKind) (st : StringInterner)
    (h : Heap) (cs : list string) (val : string) :
  32 <= usize_bits t -> inv_c t k st h cs ->
  Z.of_nat (length (add_first cs val)) < 2 ^ base_bits t k ->
  exists s st' h', get_or_intern t k st val h = Done ((s, st'), h').
Proof.
  intros Ht Hinv Hlen. unfold get_or_intern.
  destruct (map st !! val) as [[q sym]|] eqn:Hv; [eauto |].
  pose proof (inv_lookup_None _ _ _ _ _ _ Hinv Hv) as Hnin.
  destruct Hinv as (HF & _ & _ & _).
  unfold add_first in Hlen. rewrite decide_False in Hlen by done.
  rewrite length_app in Hlen. simpl in Hlen.
  unfold intern, make_symbol, len, alloc.
  rewrite (Forall2_length _ _ _ HF), from_usize_ok by (done || lia).
  cbn [obind]. eauto.
Qed.

Lemma extend_done (t : Target) (k : SymbolKind) (items : list string) :
  forall (st st' : StringInterner) (h h' : Heap) (cs : list string),
  inv_c t k st h cs -> extend t k st items h = Done (st', h') ->
  inv_c t k st' h' (fold_left add_first items cs) /\ h ⊆ h'.
Proof.
  induction items as [|x items IH]; intros st st' h h' cs Hinv He; simpl in He.
  - injection He as <- <-. done.
  - destruct (get_or_intern t k st x h) as [[[s st1] h1]| |] eqn:Hg; try discriminate.
    cbn [obind] in He.
    destruct (get_or_intern_inv _ _ _ _ _ _ _ _ _ Hinv Hg) as (Hinv1 & Hs1 & _).
    destruct (IH _ _ _ _ _ Hinv1 He) as [Hinv2 Hs2].
    split; [done | by transitivity h1].
Qed.

Lemma extend_ok (t : Target) (k : SymbolKind) (items : list string) :
  forall (st : StringInterner) (h : Heap) (cs : list string),
  32 <= usize_bits t -> inv_c t k st h cs ->
  Z.of_nat (length (fold_left add_first items cs)) < 2 ^ base_bits t k ->
  exists st' h', extend t k st items h = Done (st', h').
Proof.
  induction items as [|x items IH]; intros st h cs Ht Hinv Hlen; simpl in *; [eauto |].
  pose proof (length_fold_add_first items (add_first cs x)).
  destruct (get_or_intern_ok t k st h cs x Ht Hinv) as (s & st1 & h1 & Hg); [lia |].
  rewrite Hg. cbn [obind].
  destruct (get_or_intern_inv _ _ _ _ _ _ _ _ _ Hinv Hg) as (Hinv1 & _).
  by eapply IH.
Qed.

Lemma extend_intern_all (t : Target) (k : SymbolKind) (items : list string) :
  forall (st : StringInterner) (h : Heap),
  extend t k st items h =
  obind (intern_all t k st items h) (fun r => Done (r.1.2, r.2)).
Proof.
  induction items as [|x items IH]; intros st h; simpl; [done |].
  destruct (get_or_intern t k st x h) as [[[s st1] h1]| |]; simpl; [| done | done].
  rewrite IH. destruct (intern_all t k st1 items h1) as [[[syms st2] h2]| |]; done.
Qed.

Lemma inv_corresponds (t : Target) (k : SymbolKind) (st : StringInterner)
    (h : Heap) (cs : list string) :
  inv_c t k st h cs -> corresponds st h.
Proof.
  intros (HF & Hnd & Hlen & Hm). split; [| split].
  - assert (Hdom : dom (map st) = list_to_set cs).
    { apply set_eq. intros c. rewrite elem_of_dom, elem_of_list_to_set. split.
      - intros [e He]. destruct (proj1 (Hm c e) He) as (i & _ & Hc & _).
        by eapply list_elem_of_lookup_2.
      - intros Hin. apply list_elem_of_lookup in Hin as [i Hi].
        destruct (Forall2_lookup_r _ _ _ _ _ HF Hi) as (p & Hp & _).
        exists (p, sym_of (Z.of_nat i)). apply Hm. exists i. simpl.
        rewrite to_usize_sym_of by lia. done. }
    rewrite <- size_dom, Hdom, size_list_to_set by done.
    symmetry. apply (Forall2_length _ _ _ HF).
  - intros i Hi. destruct (lookup_lt_is_Some_2 _ _ Hi) as [p Hp].
    destruct (Forall2_lookup_l _ _ _ _ _ HF Hp) as (c & Hc & Hpc).
    exists p, c, (sym_of (Z.of_nat i)). split; [done | split; [done | split]].
    + apply Hm. exists i. simpl. rewrite to_usize_sym_of by lia. done.
    + apply to_usize_sym_of. lia.
  - intros c e He. destruct (proj1 (Hm c e) He) as (i & Hp & Hc & Hu).
    exists i. split; [done | split; [| done]].
    exact (Forall2_lookup_lr _ _ _ _ _ _ HF Hp Hc).
Qed.

Lemma extend_reachable (t : Target) (k : SymbolKind) (items : list string) :
  forall (st st' : StringInterner) (h h' : Heap),
  reachable t k st h -> extend t k st items h = Done (st', h') ->
  reachable t k st' h'.
Proof.
  induction items as [|x items IH]; intros st st' h h' Hr He; simpl in He.
  - by injection He as <- <-.
  - destruct (get_or_intern t k st x h) as [[[s st1] h1]| |] eqn:Hg; try discriminate.
    cbn [obind] in He. eapply IH; [| exact He]. by eapply reach_get_or_intern.
Qed.

Lemma get_or_intern_step (t : Target) (k : SymbolKind) (st : StringInterner)
    (h : Heap) (cs : list string) (val : string) :
  32 <= usize_bits t -> inv_c t k st h cs ->
  Z.of_nat (length (add_first cs val)) < 2 ^ base_bits t k ->
  exists s st' h', get_or_intern t k st val h = Done ((s, st'), h') /\
    inv_c t k st' h' (add_first cs val) /\
    add_first cs val !! Z.to_nat (to_usize s) = Some val.
Proof.
  intros Ht Hinv Hlen.
  destruct (get_or_intern_ok t k st h cs val Ht Hinv Hlen) as (s & st' & h' & Hg).
  destruct (get_or_intern_inv _ _ _ _ _ _ _ _ _ Hinv Hg) as (Hinv' & _ & Hl & _).
  eauto 10.
Qed.

(** ** Claims about symbols *)

(** C1 (code bug).  On a 64-bit target [SymbolU16::try_from_usize] and
    [SymbolU32::try_from_usize] return [Some] for indices beyond their
    width: the guard compares with [usize::MAX] and the cast [index as u16]
    truncates.  Index [65536] (and [2 ^ 32] for [SymbolU32]) yields the
    symbol of index [0], in debug and release builds alike. *)
Theorem C1_try_from_usize_out_of_range :
  try_from_usize t64_debug SymbolU16 65536 = Done (Some (mkSymbol 1)) /\
  try_from_usize t64_release SymbolU16 65536 = Done (Some (mkSymbol 1)) /\
  try_from_usize t64_release SymbolU32 (2 ^ 32) = Done (Some (mkSymbol 1)) /\
  to_usize (mkSymbol 1) = 0.
Proof. vm_compute. repeat split. Qed.

(** C2.  For each symbol width, every index a symbol of that width can
    hold ([0 <= i < 2 ^ bits - 1], the value [i + 1] being non-zero and
    representable) converts with [try_from_usize] and back with [to_usize]
    to itself. *)
Theorem C2_to_usize_try_from_usize (t : Target) (k : SymbolKind) (i : Z) :
  32 <= usize_bits t -> 0 <= i < 2 ^ base_bits t k - 1 ->
  exists s, try_from_usize t k i = Done (Some s) /\ to_usize s = i.
Proof.
  intros Ht Hi. exists (sym_of i). split.
  - by apply try_from_usize_ok.
  - apply to_usize_sym_of. lia.
Qed.

Lemma C2_witness :
  32 <= usize_bits t64_release /\ 0 <= 65534 < 2 ^ base_bits t64_release SymbolU16 - 1 /\
  exists s, try_from_usize t64_release SymbolU16 65534 = Done (Some s) /\ to_usize s = 65534.
Proof.
  split; [simpl; lia |]. split; [simpl; lia |].
  apply (C2_to_usize_try_from_usize t64_release SymbolU16 65534); simpl; lia.
Defined.

(** C10 (code bug).  The guard [index < usize::MAX] accepts [65535] for
    [SymbolU16] on a 64-bit target, where [index as u16 + 1] overflows: a
    release build passes [0] to [NonZeroU16::new_unchecked] (undefined
    behaviour), a debug build panics.  [SymbolU32] behaves the same at
    [2 ^ 32 - 1].  Index [65536] is accepted too, and the symbol built for
    it holds [1], not [65537]. *)
Theorem C10_new_unchecked_zero :
  (65535 <? usize_max t64_release) = true /\
  add_base t64_release 16 (as_base 16 65535) 1 = Done 0 /\
  try_from_usize t64_release SymbolU16 65535 = Undefined /\
  try_from_usize t64_debug SymbolU16 65535 = Panic /\
  try_from_usize t64_release SymbolU32 (2 ^ 32 - 1) = Undefined /\
  (exists s, try_from_usize t64_release SymbolU16 65536 = Done (Some s) /\
     Zpos (value s) <> 65536 + 1).
Proof. vm_compute. repeat split; try discriminate. eexists. split; [reflexivity | discriminate]. Qed.

(** ** Claims about [get_or_intern] and [resolve] *)

Lemma to_usize_of_lookup (l : list string) (x : string) (s : Symbol) (n : nat) :
  NoDup l -> l !! Z.to_nat (to_usize s) = Some x -> l !! n = Some x ->
  to_usize s = Z.of_nat n.
Proof.
  intros Hnd H1 H2. pose proof (NoDup_lookup _ _ _ _ Hnd H1 H2) as E.
  rewrite <- E, Z2Nat.id; [done | apply to_usize_nonneg].
Qed.

(** C3.  Calling [get_or_intern] a second time with the same text returns
    the same symbol, and leaves the interner (so its [len]) and the heap as
    they were after the first call. *)
Theorem C3_get_or_intern_idempotent (t : Target) (k : SymbolKind)
    (st st1 : StringInterner) (val : string) (h h1 : Heap) (s : Symbol) :
  get_or_intern t k st val h = Done ((s, st1), h1) ->
  get_or_intern t k st1 val h1 = Done ((s, st1), h1) /\
  (forall s2 st2 h2, get_or_intern t k st1 val h1 = Done ((s2, st2), h2) ->
     s2 = s /\ len st2 = len st1).
Proof.
  intros Hg. destruct (get_or_intern_lookup _ _ _ _ _ _ _ _ Hg) as [[q Hq] _].
  assert (E : get_or_intern t k st1 val h1 = Done ((s, st1), h1)).
  { unfold get_or_intern. rewrite Hq. reflexivity. }
  split; [exact E |]. intros s2 st2 h2 E2. rewrite E in E2.
  injection E2 as <- <- <-. done.
Qed.

Lemma C3_witness :
  exists s st1 h1,
    get_or_intern t64_debug SymbolU32 new "a"%string ∅ = Done ((s, st1), h1) /\
    get_or_intern t64_debug SymbolU32 st1 "a"%string h1 = Done ((s, st1), h1) /\
    (forall s2 st2 h2, get_or_intern t64_debug SymbolU32 st1 "a"%string h1 = Done ((s2, st2), h2) ->
       s2 = s /\ len st2 = len st1).
Proof.
  do 3 eexists. split; [reflexivity |].
  apply (C3_get_or_intern_idempotent t64_debug SymbolU32 new _ "a"%string ∅).
  reflexivity.
Defined.

(** C4.  On any interner the public API can build, the symbol returned by
    [get_or_intern val] resolves, in the resulting interner, to [val]. *)
Theorem C4_resolve_get_or_intern (t : Target) (k : SymbolKind)
    (st st' : StringInterner) (h h' : Heap) (val : string) (s : Symbol) :
  32 <= usize_bits t -> reachable t k st h ->
  get_or_intern t k st val h = Done ((s, st'), h') ->
  resolve st' h' s = Some val.
Proof.
  intros Ht Hr Hg. destruct (reachable_inv t k st h Ht Hr) as [cs Hinv].
  destruct (get_or_intern_inv _ _ _ _ _ _ _ _ _ Hinv Hg) as (Hinv' & _ & Hl & _).
  rewrite (inv_resolve _ _ _ _ _ _ Hinv'). exact Hl.
Qed.

Lemma C4_witness :
  exists s st' h',
    32 <= usize_bits t64_debug /\ reachable t64_debug SymbolU16 new ∅ /\
    get_or_intern t64_debug SymbolU16 new "Banana"%string ∅ = Done ((s, st'), h') /\
    resolve st' h' s = Some "Banana"%string.
Proof.
  do 3 eexists. split; [simpl; lia |]. split; [apply reach_new |].
  split; [reflexivity |].
  apply (C4_resolve_get_or_intern t64_debug SymbolU16 new _ ∅ _ "Banana"%string);
    [simpl; lia | apply reach_new | reflexivity].
Defined.

(** C5.  Symbols are handed out as [0, 1, 2, ...] in first-seen order:
    from an empty interner, ["a"; "b"; "a"; "c"] yields the indices
    [0; 1; 0; 2] and [len] 3; a text seen for the first time gets index
    [len]; a text already interned gets its symbol back and keeps it
    across later calls; and two texts never share a symbol. *)
Theorem C5_first_seen_symbols (t : Target) (k : SymbolKind) :
  32 <= usize_bits t ->
  (forall h, exists syms st h',
     intern_all t k new ["a"; "b"; "a"; "c"]%string h = Done ((syms, st), h') /\
     to_usize <$> syms = [0; 1; 0; 2] /\ len st = 3%nat) /\
  (forall st st' h h' val s, reachable t k st h -> get st val = None ->
     get_or_intern t k st val h = Done ((s, st'), h') ->
     to_usize s = Z.of_nat (len st)) /\
  (forall st h val s, get st val = Some s ->
     get_or_intern t k st val h = Done ((s, st), h)) /\
  (forall st st' h h' val c s s', get st c = Some s ->
     get_or_intern t k st val h = Done ((s', st'), h') -> get st' c = Some s) /\
  (forall st h c1 c2 s, reachable t k st h -> get st c1 = Some s ->
     get st c2 = Some s -> c1 = c2).
Proof.
  intros Ht. pose proof (base_bits_range t k Ht) as Hw.
  assert (H16 : 2 ^ 16 <= 2 ^ base_bits t k) by (apply Z.pow_le_mono_r; lia).
  split; [| split; [| split; [| split]]].
  - intros h. pose proof (inv_new t k h ltac:(lia)) as I0.
    destruct (get_or_intern_step t k new h [] "a" Ht I0)
      as (s1 & st1 & h1 & G1 & I1 & L1); [simpl; lia |].
    replace (add_first [] "a") with ["a"]%string in * by reflexivity.
    destruct (get_or_intern_step t k st1 h1 _ "b" Ht I1)
      as (s2 & st2 & h2 & G2 & I2 & L2); [simpl; lia |].
    replace (add_first ["a"] "b") with ["a"; "b"]%string in * by reflexivity.
    destruct (get_or_intern_step t k st2 h2 _ "a" Ht I2)
      as (s3 & st3 & h3 & G3 & I3 & L3); [simpl; lia |].
    replace (add_first ["a"; "b"] "a") with ["a"; "b"]%string in * by reflexivity.
    destruct (get_or_intern_step t k st3 h3 _ "c" Ht I3)
      as (s4 & st4 & h4 & G4 & I4 & L4); [simpl; lia |].
    replace (add_first ["a"; "b"] "c") with ["a"; "b"; "c"]%string in * by reflexivity.
    exists [s1; s2; s3; s4], st4, h4. split.
    + cbn [intern_all]. rewrite G1. cbn [obind]. rewrite G2. cbn [obind].
      rewrite G3. cbn [obind]. rewrite G4. reflexivity.
    + destruct I4 as (HF4 & Hnd4 & _ & _). destruct I2 as (_ & Hnd2 & _ & _).
      destruct I1 as (_ & Hnd1 & _ & _).
      split.
      * simpl. rewrite (to_usize_of_lookup _ _ _ 0 Hnd1 L1 eq_refl).
        rewrite (to_usize_of_lookup _ _ _ 1 Hnd2 L2 eq_refl).
        rewrite (to_usize_of_lookup _ _ _ 0 Hnd2 L3 eq_refl).
        rewrite (to_usize_of_lookup _ _ _ 2 Hnd4 L4 eq_refl). done.
      * unfold len. rewrite (Forall2_length _ _ _ HF4). done.
  - intros st st' h h' val s Hr Hn Hg.
    destruct (reachable_inv t k st h Ht Hr) as [cs Hinv].
    assert (Hv : map st !! val = None).
    { unfold get in Hn. destruct (map st !! val); [discriminate | done]. }
    pose proof (inv_lookup_None _ _ _ _ _ _ Hinv Hv) as Hnin.
    destruct (get_or_intern_inv _ _ _ _ _ _ _ _ _ Hinv Hg) as (_ & _ & _ & Hnew).
    rewrite (Hnew Hnin). unfold len. destruct Hinv as (HF & _).
    by rewrite (Forall2_length _ _ _ HF).
  - intros st h val s Hs. unfold get in Hs. unfold get_or_intern.
    destruct (map st !! val) as [[q sym]|]; [| discriminate].
    simpl in Hs. injection Hs as <-. reflexivity.
  - intros st st' h h' val c s s' Hs Hg. unfold get in *.
    destruct (map st !! c) as [e|] eqn:Hc; [| discriminate].
    destruct (get_or_intern_lookup _ _ _ _ _ _ _ _ Hg) as [_ Hkeep].
    rewrite (Hkeep c e Hc). exact Hs.
  - intros st h c1 c2 s Hr H1 H2.
    destruct (reachable_inv t k st h Ht Hr) as [cs Hinv].
    apply (inv_get _ _ _ _ _ _ _ Hinv) in H1, H2. congruence.
Qed.

Lemma C5_witness :
  32 <= usize_bits t64_release /\
  exists syms st h',
     intern_all t64_release SymbolU16 new ["a"; "b"; "a"; "c"]%string ∅ = Done ((syms, st), h') /\
     to_usize <$> syms = [0; 1; 0; 2] /\ len st = 3%nat.
Proof.
  split; [simpl; lia |].
  apply (C5_first_seen_symbols t64_release SymbolU16). simpl. lia.
Defined.

(** ** Claims about the map/values correspondence and [clone] *)

(** C6.  Every interner built with the public operations ([new] and the
    other constructors, [get_or_intern], [reserve], [shrink_to_fit],
    [clone]; [get] and [resolve] change nothing) has its map and its
    values in one-to-one correspondence. *)
Theorem C6_map_values_correspond (t : Target) (k : SymbolKind)
    (st : StringInterner) (h : Heap) :
  32 <= usize_bits t -> reachable t k st h -> corresponds st h.
Proof.
  intros Ht Hr. destruct (reachable_inv t k st h Ht Hr) as [cs Hinv].
  exact (inv_corresponds _ _ _ _ _ Hinv).
Qed.

Lemma C6_witness :
  exists s st h,
    get_or_intern t64_debug SymbolU32 new "Tiger"%string ∅ = Done ((s, st), h) /\
    32 <= usize_bits t64_debug /\ reachable t64_debug SymbolU32 st h /\
    corresponds st h.
Proof.
  do 3 eexists. split; [reflexivity |].
  assert (Ht : 32 <= usize_bits t64_debug) by (simpl; lia).
  match goal with |- _ /\ reachable _ _ ?st ?h /\ _ =>
    assert (Hr : reachable t64_debug SymbolU32 st h) end.
  { eapply reach_get_or_intern; [apply reach_new | reflexivity]. }
  split; [exact Ht |]. split; [exact Hr |].
  exact (C6_map_values_correspond _ _ _ _ Ht Hr).
Defined.

(** C7.  Cloning never fails on a reachable interner.  The clone's map is
    rebuilt from the clone's own boxes: each entry holds a box of the clone
    and none of the original, and the entries are exactly those derived
    from the cloned values.  Every symbol resolves in the clone as in the
    original, the clone has the same [len], and neither the clone's
    allocations nor a later [get_or_intern] on the clone change what the
    original resolves to.  (The original's [len] is a function of its own
    state, which these operations do not take.) *)
Theorem C7_clone_fidelity (t : Target) (k : SymbolKind)
    (st : StringInterner) (h : Heap) :
  32 <= usize_bits t -> reachable t k st h ->
  exists st' h', clone t k st h = Done (st', h') /\
    (forall c e, map st' !! c = Some e -> e.1 ∈ values st' /\ e.1 ∉ values st) /\
    (forall c e, map st' !! c = Some e <->
       exists i, values st' !! i = Some e.1 /\ h' !! e.1 = Some c /\
                 to_usize e.2 = Z.of_nat i) /\
    (forall s, resolve st' h' s = resolve st h s) /\
    len st' = len st /\
    (forall s, resolve st h' s = resolve st h s) /\
    (forall val s st'' h'', get_or_intern t k st' val h' = Done ((s, st''), h'') ->
       forall s0, resolve st h'' s0 = resolve st h s0).
Proof.
  intros Ht Hr. destruct (reachable_inv t k st h Ht Hr) as [cs Hinv].
  destruct (clone_ok t k st h cs Ht Hinv) as (st' & h' & Hc).
  destruct (clone_inv _ _ _ _ _ _ _ Hinv Hc) as (Hinv' & Hsub & Hfr).
  assert (Hinvh' : inv_c t k st h' cs) by (by eapply inv_weaken).
  exists st', h'. split; [done |]. split; [| split; [| split; [| split; [| split]]]].
  - intros c e He. destruct Hinv' as (_ & _ & _ & Hm').
    destruct (proj1 (Hm' c e) He) as (i & Hp & _ & _).
    split; [by eapply list_elem_of_lookup_2 |]. intros Hin.
    apply list_elem_of_lookup in Hin as [j Hj].
    destruct Hinv as (HF & _).
    destruct (Forall2_lookup_l _ _ _ _ _ HF Hj) as (c' & _ & Hpc).
    assert (h !! e.1 = None) by (apply Hfr; by eapply list_elem_of_lookup_2).
    congruence.
  - intros c e. destruct Hinv' as (HF' & _ & _ & Hm'). rewrite Hm'. split.
    + intros (i & Hp & Hc' & Hu). exists i. split; [done | split; [| done]].
      exact (Forall2_lookup_lr _ _ _ _ _ _ HF' Hp Hc').
    + intros (i & Hp & Hc' & Hu). exists i. split; [done | split; [| done]].
      destruct (Forall2_lookup_l _ _ _ _ _ HF' Hp) as (c' & Hc'' & Hpc).
      congruence.
  - intros s. rewrite (inv_resolve _ _ _ _ _ _ Hinv'), (inv_resolve _ _ _ _ _ _ Hinv).
    done.
  - destruct Hinv' as (HF' & _), Hinv as (HF & _). unfold len.
    by rewrite (Forall2_length _ _ _ HF'), (Forall2_length _ _ _ HF).
  - intros s. rewrite (inv_resolve _ _ _ _ _ _ Hinvh'), (inv_resolve _ _ _ _ _ _ Hinv).
    done.
  - intros val s st'' h'' Hg s0.
    destruct (get_or_intern_inv _ _ _ _ _ _ _ _ _ Hinv' Hg) as (_ & Hsub' & _).
    rewrite (inv_resolve _ _ _ _ _ _ (inv_weaken _ _ _ _ _ _ Hinvh' Hsub')).
    rewrite (inv_resolve _ _ _ _ _ _ Hinv). done.
Qed.

Lemma C7_witness :
  exists s st h,
    get_or_intern t64_debug SymbolU32 new "Horse"%string ∅ = Done ((s, st), h) /\
    32 <= usize_bits t64_debug /\ reachable t64_debug SymbolU32 st h /\
    exists st' h', clone t64_debug SymbolU32 st h = Done (st', h') /\
    (forall c e, map st' !! c = Some e -> e.1 ∈ values st' /\ e.1 ∉ values st) /\
    (forall c e, map st' !! c = Some e <->
       exists i, values st' !! i = Some e.1 /\ h' !! e.1 = Some c /\
                 to_usize e.2 = Z.of_nat i) /\
    (forall s, resolve st' h' s = resolve st h s) /\
    len st' = len st /\
    (forall s, resolve st h' s = resolve st h s) /\
    (forall val s st'' h'', get_or_intern t64_debug SymbolU32 st' val h' = Done ((s, st''), h'') ->
       forall s0, resolve st h'' s0 = resolve st h s0).
Proof.
  do 3 eexists. split; [reflexivity |].
  assert (Ht : 32 <= usize_bits t64_debug) by (simpl; lia).
  match goal with |- _ /\ reachable _ _ ?st ?h /\ _ =>
    assert (Hr : reachable t64_debug SymbolU32 st h) end.
  { eapply reach_get_or_intern; [apply reach_new | reflexivity]. }
  split; [exact Ht |]. split; [exact Hr |].
  exact (C7_clone_fidelity _ _ _ _ Ht Hr).
Defined.

(** ** A full [SymbolU16] interner *)

Lemma Z_to_N_lt_256 (z : Z) : 0 <= z < 256 -> (Z.to_N z < 256)%N.
Proof. intros Hz. apply N2Z.inj_lt. rewrite Z2N.id by lia. simpl. lia. Qed.

Lemma names_u16_NoDup : NoDup names_u16.
Proof.
  apply NoDup_fmap_2_strong; [| apply NoDup_seqZ].
  intros x y Hx Hy E. apply elem_of_seqZ in Hx, Hy.
  unfold name_of in E. injection E as E1 E2.
  apply (f_equal Ascii.N_of_ascii) in E1, E2.
  assert (Hmx : 0 <= x mod 256 < 256) by (apply Z.mod_pos_bound; lia).
  assert (Hmy : 0 <= y mod 256 < 256) by (apply Z.mod_pos_bound; lia).
  assert (Hdx : 0 <= x / 256 < 256)
    by (split; [apply Z.div_pos | apply Z.div_lt_upper_bound]; lia).
  assert (Hdy : 0 <= y / 256 < 256)
    by (split; [apply Z.div_pos | apply Z.div_lt_upper_bound]; lia).
  rewrite !Ascii.N_ascii_embedding in E1, E2 by (apply Z_to_N_lt_256; assumption).
  apply Z2N.inj in E1; [| lia | lia]. apply Z2N.inj in E2; [| lia | lia].
  rewrite (Z.div_mod x 256), (Z.div_mod y 256) by lia. congruence.
Qed.

Lemma x_not_in_names_u16 : "x"%string ∉ names_u16.
Proof.
  intros Hin. apply list_elem_of_fmap in Hin as (i & E & _).
  apply (f_equal String.length) in E. discriminate.
Qed.

Lemma u16_full_interner (t : Target) :
  usize_bits t = 64 ->
  exists st h, from_iter t SymbolU16 names_u16 ∅ = Done (st, h) /\
    reachable t SymbolU16 st h /\ Z.of_nat (len st) = 65535 /\
    map st !! "x"%string = None.
Proof.
  intros Hb. assert (Ht : 32 <= usize_bits t) by lia.
  pose proof (inv_new t SymbolU16 ∅ ltac:(simpl; lia)) as I0.
  assert (Hfs : fold_left add_first names_u16 [] = names_u16).
  { apply (fold_add_first_NoDup names_u16 []). apply names_u16_NoDup. }
  assert (Hlen : length names_u16 = Z.to_nat 65535).
  { unfold names_u16. rewrite length_fmap. apply length_seqZ. }
  destruct (extend_ok t SymbolU16 names_u16 new ∅ [] Ht I0) as (st & h & He).
  { rewrite Hfs, Hlen. simpl. lia. }
  destruct (extend_done _ _ _ _ _ _ _ _ I0 He) as [I1 _]. rewrite Hfs in I1.
  exists st, h. split; [exact He |]. split; [| split].
  - eapply extend_reachable; [apply reach_new | exact He].
  - destruct I1 as (HF & _). unfold len. rewrite (Forall2_length _ _ _ HF), Hlen.
    lia.
  - destruct (map st !! "x"%string) as [e|] eqn:Hx; [| done].
    destruct I1 as (_ & _ & _ & Hm). destruct (proj1 (Hm _ e) Hx) as (i & _ & Hc & _).
    destruct x_not_in_names_u16. by eapply list_elem_of_lookup_2.
Qed.

(** ** Claims about capacity exhaustion and bulk construction *)

(** C8 (code bug).  A [SymbolU16] interner on a 64-bit target, built with
    [from_iter] from 65535 distinct strings, is full.  Interning one more
    new string makes [make_symbol] call [from_usize 65535]; the guard of
    [try_from_usize] lets it through, and [65535 as u16 + 1] overflows: a
    release build reaches [NonZeroU16::new_unchecked(0)], undefined
    behaviour, and a debug build panics in the addition, not in the
    helper's [expect]. *)
Theorem C8_full_u16_interner_overflow :
  (exists st h, from_iter t64_release SymbolU16 names_u16 ∅ = Done (st, h) /\
     reachable t64_release SymbolU16 st h /\ Z.of_nat (len st) = 65535 /\
     get st "x"%string = None /\
     get_or_intern t64_release SymbolU16 st "x"%string h = Undefined) /\
  (exists st h, from_iter t64_debug SymbolU16 names_u16 ∅ = Done (st, h) /\
     reachable t64_debug SymbolU16 st h /\ Z.of_nat (len st) = 65535 /\
     get st "x"%string = None /\
     get_or_intern t64_debug SymbolU16 st "x"%string h = Panic).
Proof.
  split.
  - destruct (u16_full_interner t64_release eq_refl) as (st & h & Hf & Hr & Hl & Hx).
    exists st, h. split; [done | split; [done | split; [done | split]]].
    + unfold get. by rewrite Hx.
    + unfold get_or_intern. rewrite Hx. unfold intern, make_symbol.
      rewrite Hl. reflexivity.
  - destruct (u16_full_interner t64_debug eq_refl) as (st & h & Hf & Hr & Hl & Hx).
    exists st, h. split; [done | split; [done | split; [done | split]]].
    + unfold get. by rewrite Hx.
    + unfold get_or_intern. rewrite Hx. unfold intern, make_symbol.
      rewrite Hl. reflexivity.
Qed.

Lemma elem_of_fold_add_first (items cs : list string) (x : string) :
  x ∈ cs \/ x ∈ items -> x ∈ fold_left add_first items cs.
Proof.
  revert cs. induction items as [|y items IH]; intros cs Hx; simpl.
  - destruct Hx as [Hx | Hx]; [done | by apply not_elem_of_nil in Hx].
  - apply IH. destruct Hx as [Hx | Hx].
    + left. unfold add_first. case_decide; [done |]. apply elem_of_app. by left.
    + apply elem_of_cons in Hx as [-> | Hx]; [| by right].
      left. unfold add_first. case_decide; [done |].
      apply elem_of_app. right. by apply list_elem_of_singleton.
Qed.

(** C9.  [from_iter] (hence [extend] from an empty interner) is the same
    computation as calling [get_or_intern] on each item in order from
    [new].  When the distinct items fit the symbol width it succeeds: the
    interner holds the items in first-seen order, the symbol of index [i]
    resolves to the [i]-th distinct item, and each item's symbol is the
    index of its first occurrence among the distinct items. *)
Theorem C9_from_iter_first_seen (t : Target) (k : SymbolKind)
    (items : list string) (h : Heap) :
  32 <= usize_bits t ->
  Z.of_nat (length (first_seen items)) < 2 ^ base_bits t k ->
  from_iter t k items h =
    obind (intern_all t k new items h) (fun r => Done (r.1.2, r.2)) /\
  exists st h', from_iter t k items h = Done (st, h') /\
    len st = length (first_seen items) /\
    (forall i, resolve st h' (sym_of (Z.of_nat i)) = first_seen items !! i) /\
    (forall x, x ∈ items ->
       exists s, get st x = Some s /\
                 first_seen items !! Z.to_nat (to_usize s) = Some x).
Proof.
  intros Ht Hfit. split; [apply extend_intern_all |].
  pose proof (base_bits_range t k Ht) as Hw.
  pose proof (inv_new t k h ltac:(lia)) as I0.
  destruct (extend_ok t k items new h [] Ht I0 Hfit) as (st & h' & He).
  destruct (extend_done _ _ _ _ _ _ _ _ I0 He) as [I1 _].
  exists st, h'. split; [exact He |]. split; [| split].
  - destruct I1 as (HF & _). unfold len. by rewrite (Forall2_length _ _ _ HF).
  - intros i. rewrite (inv_resolve _ _ _ _ _ _ I1), to_usize_sym_of by lia.
    rewrite Nat2Z.id. done.
  - intros x Hx. assert (Hin : x ∈ first_seen items).
    { apply elem_of_fold_add_first. by right. }
    apply list_elem_of_lookup in Hin as [i Hi].
    exists (sym_of (Z.of_nat i)).
    assert (Hl : first_seen items !! Z.to_nat (to_usize (sym_of (Z.of_nat i))) = Some x).
    { rewrite to_usize_sym_of, Nat2Z.id by lia. done. }
    split; [| exact Hl]. by apply (inv_get _ _ _ _ _ _ _ I1).
Qed.

Lemma C9_witness :
  32 <= usize_bits t64_debug /\
  Z.of_nat (length (first_seen ["Elephant"; "Tiger"; "Horse"; "Tiger"]%string))
    < 2 ^ base_bits t64_debug SymbolU32 /\
  from_iter t64_debug SymbolU32 ["Elephant"; "Tiger"; "Horse"; "Tiger"]%string ∅ =
    obind (intern_all t64_debug SymbolU32 new ["Elephant"; "Tiger"; "Horse"; "Tiger"]%string ∅)
      (fun r => Done (r.1.2, r.2)) /\
  exists st h', from_iter t64_debug SymbolU32 ["Elephant"; "Tiger"; "Horse"; "Tiger"]%string ∅
                  = Done (st, h') /\
    len st = length (first_seen ["Elephant"; "Tiger"; "Horse"; "Tiger"]%string) /\
    (forall i, resolve st h' (sym_of (Z.of_nat i)) =
               first_seen ["Elephant"; "Tiger"; "Horse"; "Tiger"]%string !! i) /\
    (forall x, x ∈ ["Elephant"; "Tiger"; "Horse"; "Tiger"]%string ->
       exists s, get st x = Some s /\
         first_seen ["Elephant"; "Tiger"; "Horse"; "Tiger"]%string
           !! Z.to_nat (to_usize s) = Some x).
Proof.
  split; [simpl; lia |]. split; [vm_compute; reflexivity |].
  apply C9_from_iter_first_seen; [simpl; lia | vm_compute; reflexivity].
Defined.

(** ** Lemmas about the further operations *)

Lemma try_from_usize_spec (t : Target) (k : SymbolKind) (index : Z) :
  32 <= usize_bits t -> 0 <= index <= usize_max t ->
  try_from_usize t k index =
    if index =? usize_max t then Done None
    else if index mod 2 ^ base_bits t k =? 2 ^ base_bits t k - 1 then
      (if overflow_checks t then Panic else Undefined)
    else Done (Some (sym_of (index mod 2 ^ base_bits t k))).
Proof.
  intros Ht Hi. pose proof (base_bits_range t k Ht) as Hw.
  assert (Hp : 0 < 2 ^ base_bits t k) by (apply Z.pow_pos_nonneg; lia).
  unfold try_from_usize. destruct (Z.eqb_spec index (usize_max t)) as [E|E].
  - rewrite E, Z.ltb_irrefl. reflexivity.
  - rewrite (proj2 (Z.ltb_lt _ _)) by lia. unfold as_base, add_base.
    pose proof (Z.mod_pos_bound index (2 ^ base_bits t k) Hp) as Hm.
    set (m := index mod 2 ^ base_bits t k) in *.
    destruct (Z.eqb_spec m (2 ^ base_bits t k - 1)) as [Em|Em].
    + rewrite Em. replace (2 ^ base_bits t k - 1 + 1) with (2 ^ base_bits t k) by lia.
      rewrite Z.leb_refl, Z.mod_same by lia.
      destruct (overflow_checks t); reflexivity.
    + replace (2 ^ base_bits t k <=? m + 1) with false by (symmetry; apply Z.leb_gt; lia).
      rewrite andb_false_r. cbn [obind]. rewrite Z.mod_small by lia.
      unfold new_unchecked, sym_of. destruct (m + 1) eqn:E1; try lia. reflexivity.
Qed.

Lemma symbol_cmp_to_usize (s1 s2 : Symbol) :
  symbol_cmp s1 s2 = Z.compare (to_usize s1) (to_usize s2).
Proof.
  destruct s1 as [p1], s2 as [p2]. unfold symbol_cmp, to_usize. simpl.
  destruct (Pos.compare_spec p1 p2); destruct (Z.compare_spec (Zpos p1 - 1) (Zpos p2 - 1));
    try reflexivity; lia.
Qed.

Lemma inv_len (t : Target) (k : SymbolKind) (st : StringInterner) (h : Heap)
    (cs : list string) :
  inv_c t k st h cs -> len st = length cs.
Proof. intros (HF & _). unfold len. exact (Forall2_length _ _ _ HF). Qed.

Lemma contents_Forall2 (h : Heap) (vs : list loc) (cs : list string) :
  Forall2 (fun p c => h !! p = Some c) vs cs -> contents h vs = Some <$> cs.
Proof. induction 1 as [|p c vs cs Hp _ IH]; [done |]. simpl. by rewrite Hp, IH. Qed.

Lemma values_from_Forall2 (h : Heap) (vs : list loc) (cs : list string) :
  Forall2 (fun p c => h !! p = Some c) vs cs -> values_from vs h = Done cs.
Proof. induction 1 as [|p c vs cs Hp _ IH]; [done |]. simpl. by rewrite Hp, IH. Qed.

Lemma iter_from_Forall2 (t : Target) (k : SymbolKind) (h : Heap)
    (vs : list loc) (cs : list string) (i : nat) :
  32 <= usize_bits t -> Forall2 (fun p c => h !! p = Some c) vs cs ->
  Z.of_nat (i + length cs) < 2 ^ base_bits t k ->
  iter_from t k i vs h = Done (pairs_from i cs).
Proof.
  intros Ht HF. revert i. induction HF as [|p c vs cs Hp HF IH]; intros i Hl; [done |].
  simpl in Hl. simpl. rewrite from_usize_ok by (done || lia). cbn [obind].
  rewrite Hp, IH by lia. reflexivity.
Qed.

Lemma pairs_from_lookup (i j : nat) (cs : list string) (s : Symbol) (c : string) :
  pairs_from i cs !! j = Some (s, c) <->
  s = sym_of (Z.of_nat (i + j)) /\ cs !! j = Some c.
Proof.
  revert i j. induction cs as [|c0 cs IH]; intros i j; simpl.
  - rewrite lookup_nil. split; [discriminate | intros [_ ?]; discriminate].
  - destruct j as [|j]; simpl.
    + rewrite Nat.add_0_r. split; [intros [= <- <-]; done | intros [-> [= ->]]; done].
    + rewrite IH. replace (S i + j)%nat with (i + S j)%nat by lia. done.
Qed.

Lemma add_first_lookup (cs : list string) (x c : string) (n : nat) :
  cs !! n = Some c -> add_first cs x !! n = Some c.
Proof. unfold add_first. case_decide; [done |]. apply lookup_app_l_Some. Qed.

Lemma get_reachable (t : Target) (k : SymbolKind) (st : StringInterner) (h : Heap)
    (c : string) (s : Symbol) :
  32 <= usize_bits t -> reachable t k st h ->
  get st c = Some s <-> resolve st h s = Some c.
Proof.
  intros Ht Hr. destruct (reachable_inv t k st h Ht Hr) as [cs Hinv].
  rewrite (inv_get _ _ _ _ _ _ _ Hinv), (inv_resolve _ _ _ _ _ _ Hinv). done.
Qed.

Lemma intern_all_reachable (t : Target) (k : SymbolKind) (items : list string) :
  forall st st' h h' syms,
  reachable t k st h -> intern_all t k st items h = Done ((syms, st'), h') ->
  reachable t k st' h'.
Proof.
  induction items as [|x items IH]; intros st st' h h' syms Hr Hi; simpl in Hi.
  - by injection Hi as <- <- <-.
  - destruct (get_or_intern t k st x h) as [[[s st1] h1]| |] eqn:Hg; try discriminate.
    cbn [obind] in Hi.
    destruct (intern_all t k st1 items h1) as [[[syms' st2] h2]| |] eqn:Hi';
      try discriminate.
    cbn [obind] in Hi. injection Hi as <- <- <-.
    eapply IH; [| exact Hi']. by eapply reach_get_or_intern.
Qed.

Lemma intern_all_get (t : Target) (k : SymbolKind) (items : list string) :
  forall st st' h h' syms c s,
  intern_all t k st items h = Done ((syms, st'), h') ->
  get st c = Some s -> get st' c = Some s.
Proof.
  induction items as [|x items IH]; intros st st' h h' syms c s Hi Hc; simpl in Hi.
  - by injection Hi as <- <- <-.
  - destruct (get_or_intern t k st x h) as [[[s1 st1] h1]| |] eqn:Hg; try discriminate.
    cbn [obind] in Hi.
    destruct (intern_all t k st1 items h1) as [[[syms' st2] h2]| |] eqn:Hi';
      try discriminate.
    cbn [obind] in Hi. injection Hi as <- <- <-.
    eapply IH; [exact Hi' |]. unfold get in *.
    destruct (map st !! c) as [e|] eqn:He; [| discriminate].
    destruct (get_or_intern_lookup _ _ _ _ _ _ _ _ Hg) as [_ Hkeep].
    by rewrite (Hkeep c e He).
Qed.

Lemma ex_reachable : reachable t64_debug SymbolU32 ex_st ex_h.
Proof.
  apply (extend_reachable t64_debug SymbolU32 ["Earth"; "Water"; "Fire"; "Air"]%string
           new ex_st ∅ ex_h); [apply reach_new | vm_compute; reflexivity].
Qed.

(** ** Properties of the further operations *)

(** A symbol whose value fits its base type converts to its index with
    [to_usize] and back to itself with [try_from_usize]. *)
Theorem try_from_usize_to_usize (t : Target) (k : SymbolKind) (s : Symbol) :
  32 <= usize_bits t -> Zpos (value s) < 2 ^ base_bits t k ->
  try_from_usize t k (to_usize s) = Done (Some s).
Proof.
  intros Ht Hs. rewrite try_from_usize_ok; [by rewrite sym_of_to_usize | done |].
  unfold to_usize. lia.
Qed.

Lemma try_from_usize_to_usize_witness :
  32 <= usize_bits t64_release /\ Zpos (value (mkSymbol 65535)) < 2 ^ base_bits t64_release SymbolU16 /\
  try_from_usize t64_release SymbolU16 (to_usize (mkSymbol 65535)) = Done (Some (mkSymbol 65535)).
Proof.
  split; [simpl; lia |]. split; [simpl; lia |].
  apply try_from_usize_to_usize; simpl; lia.
Defined.

(** Over the whole [usize] range, [try_from_usize] returns [None] only at
    [usize::MAX]; below it, the index is truncated to the base width [w]
    ([index as $base_ty]) and the result is the symbol of [index mod 2 ^
    w], except when [index mod 2 ^ w = 2 ^ w - 1], where [+ 1] overflows:
    a debug build panics, a release build reaches [new_unchecked(0)]. *)
Theorem try_from_usize_truncates (t : Target) (k : SymbolKind) (index : Z) :
  32 <= usize_bits t -> 0 <= index <= usize_max t ->
  try_from_usize t k index =
    if index =? usize_max t then Done None
    else if index mod 2 ^ base_bits t k =? 2 ^ base_bits t k - 1 then
      (if overflow_checks t then Panic else Undefined)
    else Done (Some (sym_of (index mod 2 ^ base_bits t k))).
Proof. exact (try_from_usize_spec t k index). Qed.

Lemma try_from_usize_truncates_witness :
  32 <= usize_bits t64_release /\ 0 <= 65537 <= usize_max t64_release /\
  try_from_usize t64_release SymbolU16 65537 =
    if 65537 =? usize_max t64_release then Done None
    else if 65537 mod 2 ^ base_bits t64_release SymbolU16 =? 2 ^ base_bits t64_release SymbolU16 - 1 then
      (if overflow_checks t64_release then Panic else Undefined)
    else Done (Some (sym_of (65537 mod 2 ^ base_bits t64_release SymbolU16))).
Proof.
  split; [simpl; lia |]. split; [vm_compute; split; discriminate |].
  apply try_from_usize_truncates; [simpl; lia | vm_compute; split; discriminate].
Defined.

(** For [SymbolUsize], [expect_valid_symbol] never reaches undefined
    behaviour: it panics exactly at [usize::MAX] and otherwise returns the
    symbol of the index. *)
Theorem expect_valid_symbol_usize (t : Target) (i : Z) :
  32 <= usize_bits t -> 0 <= i <= usize_max t ->
  expect_valid_symbol t SymbolUsize i =
    if i =? usize_max t then Panic else Done (sym_of i).
Proof.
  intros Ht Hi. unfold expect_valid_symbol. rewrite try_from_usize_spec by done.
  destruct (Z.eqb_spec i (usize_max t)) as [E|E]; [reflexivity |].
  unfold usize_max in *. simpl base_bits.
  rewrite Z.mod_small by lia.
  rewrite (proj2 (Z.eqb_neq _ _)) by lia. reflexivity.
Qed.

Lemma expect_valid_symbol_usize_witness :
  32 <= usize_bits t64_debug /\ 0 <= 65535 <= usize_max t64_debug /\
  expect_valid_symbol t64_debug SymbolUsize 65535 =
    if 65535 =? usize_max t64_debug then Panic else Done (sym_of 65535).
Proof.
  split; [simpl; lia |]. split; [vm_compute; split; discriminate |].
  apply expect_valid_symbol_usize; [simpl; lia | vm_compute; split; discriminate].
Defined.

(** The derived ordering of symbols (on their non-zero value) is the
    ordering of their indices. *)
Theorem symbol_cmp_index (s1 s2 : Symbol) :
  symbol_cmp s1 s2 = Z.compare (to_usize s1) (to_usize s2).
Proof. exact (symbol_cmp_to_usize s1 s2). Qed.

(** A string interned for the first time gets a symbol greater, in the
    derived ordering, than every symbol already in the interner. *)
Theorem get_or_intern_new_symbol_greatest (t : Target) (k : SymbolKind)
    (st st' : StringInterner) (h h' : Heap) (val : string) (s : Symbol) :
  32 <= usize_bits t -> reachable t k st h -> get st val = None ->
  get_or_intern t k st val h = Done ((s, st'), h') ->
  forall c s0, get st c = Some s0 -> symbol_cmp s0 s = Lt.
Proof.
  intros Ht Hr Hn Hg c s0 Hc. destruct (reachable_inv t k st h Ht Hr) as [cs Hinv].
  assert (Hv : map st !! val = None).
  { unfold get in Hn. destruct (map st !! val); [discriminate | done]. }
  pose proof (inv_lookup_None _ _ _ _ _ _ Hinv Hv) as Hnin.
  destruct (get_or_intern_inv _ _ _ _ _ _ _ _ _ Hinv Hg) as (_ & _ & _ & Hs).
  apply (inv_get _ _ _ _ _ _ _ Hinv) in Hc. apply lookup_lt_Some in Hc.
  rewrite symbol_cmp_to_usize, (Hs Hnin). apply Z.compare_lt_iff.
  pose proof (to_usize_nonneg s0). lia.
Qed.

Lemma get_or_intern_new_symbol_greatest_witness :
  exists s st' h',
    32 <= usize_bits t64_debug /\ reachable t64_debug SymbolU32 ex_st ex_h /\
    get ex_st "Wind"%string = None /\
    get_or_intern t64_debug SymbolU32 ex_st "Wind"%string ex_h = Done ((s, st'), h') /\
    (forall c s0, get ex_st c = Some s0 -> symbol_cmp s0 s = Lt).
Proof.
  do 3 eexists. split; [simpl; lia |]. split; [exact ex_reachable |].
  split; [vm_compute; reflexivity |]. split; [vm_compute; reflexivity |].
  eapply (get_or_intern_new_symbol_greatest t64_debug SymbolU32 ex_st _ ex_h _ "Wind"%string);
    [simpl; lia | exact ex_reachable | vm_compute; reflexivity | vm_compute; reflexivity].
Defined.

(** On any interner the public API can build, [get] and [resolve] are
    inverse: [get c] is [Some s] exactly when [resolve s] is [Some c]. *)
Theorem get_resolve_inverse (t : Target) (k : SymbolKind) (st : StringInterner)
    (h : Heap) (c : string) (s : Symbol) :
  32 <= usize_bits t -> reachable t k st h ->
  get st c = Some s <-> resolve st h s = Some c.
Proof. exact (get_reachable t k st h c s). Qed.

Lemma get_resolve_inverse_witness :
  32 <= usize_bits t64_debug /\ reachable t64_debug SymbolU32 ex_st ex_h /\
  (get ex_st "Fire"%string = Some (sym_of 2) <-> resolve ex_st ex_h (sym_of 2) = Some "Fire"%string).
Proof.
  split; [simpl; lia |]. split; [exact ex_reachable |].
  apply (get_resolve_inverse t64_debug SymbolU32); [simpl; lia | exact ex_reachable].
Defined.

(** On any interner the public API can build, [resolve s] is [None]
    exactly when the index of [s] is at least [len]. *)
Theorem resolve_none_iff (t : Target) (k : SymbolKind) (st : StringInterner)
    (h : Heap) (s : Symbol) :
  32 <= usize_bits t -> reachable t k st h ->
  resolve st h s = None <-> Z.of_nat (len st) <= to_usize s.
Proof.
  intros Ht Hr. destruct (reachable_inv t k st h Ht Hr) as [cs Hinv].
  rewrite (inv_resolve _ _ _ _ _ _ Hinv), (inv_len _ _ _ _ _ Hinv), lookup_ge_None.
  pose proof (to_usize_nonneg s). lia.
Qed.

Lemma resolve_none_iff_witness :
  32 <= usize_bits t64_debug /\ reachable t64_debug SymbolU32 ex_st ex_h /\
  (resolve ex_st ex_h (sym_of 4) = None <-> Z.of_nat (len ex_st) <= to_usize (sym_of 4)).
Proof.
  split; [simpl; lia |]. split; [exact ex_reachable |].
  apply (resolve_none_iff t64_debug SymbolU32); [simpl; lia | exact ex_reachable].
Defined.

(** On any interner the public API can build, [resolve_unchecked s] is
    defined and agrees with [resolve s] when the index of [s] is below
    [len], and is undefined behaviour otherwise. *)
Theorem resolve_unchecked_defined (t : Target) (k : SymbolKind) (st : StringInterner)
    (h : Heap) (s : Symbol) :
  32 <= usize_bits t -> reachable t k st h ->
  (to_usize s < Z.of_nat (len st) ->
     exists c, resolve_unchecked st h s = Done c /\ resolve st h s = Some c) /\
  (Z.of_nat (len st) <= to_usize s -> resolve_unchecked st h s = Undefined).
Proof.
  intros Ht Hr. destruct (reachable_inv t k st h Ht Hr) as [cs Hinv].
  pose proof (inv_resolve _ _ _ _ _ s Hinv) as Hres.
  pose proof (to_usize_nonneg s) as Hn.
  destruct Hinv as (HF & _). unfold len. rewrite (Forall2_length _ _ _ HF).
  unfold resolve_unchecked. split.
  - intros Hl. destruct (lookup_lt_is_Some_2 cs (Z.to_nat (to_usize s))) as [c Hc]; [lia |].
    destruct (Forall2_lookup_r _ _ _ _ _ HF Hc) as (p & Hp & Hpc).
    exists c. rewrite Hp, Hpc. rewrite Hres, Hc. done.
  - intros Hl. rewrite (proj2 (lookup_ge_None _ _)); [done |].
    rewrite (Forall2_length _ _ _ HF). lia.
Qed.

Lemma resolve_unchecked_defined_witness :
  32 <= usize_bits t64_debug /\ reachable t64_debug SymbolU32 ex_st ex_h /\
  (to_usize (sym_of 1) < Z.of_nat (len ex_st) ->
     exists c, resolve_unchecked ex_st ex_h (sym_of 1) = Done c /\ resolve ex_st ex_h (sym_of 1) = Some c) /\
  (Z.of_nat (len ex_st) <= to_usize (sym_of 1) -> resolve_unchecked ex_st ex_h (sym_of 1) = Undefined).
Proof.
  split; [simpl; lia |]. split; [exact ex_reachable |].
  apply (resolve_unchecked_defined t64_debug SymbolU32); [simpl; lia | exact ex_reachable].
Defined.

(** On any interner the public API can build, [is_empty] holds exactly
    when [get] finds no string, and exactly when [resolve] resolves no
    symbol. *)
Theorem is_empty_iff (t : Target) (k : SymbolKind) (st : StringInterner) (h : Heap) :
  32 <= usize_bits t -> reachable t k st h ->
  (is_empty st = true <-> forall c, get st c = None) /\
  (is_empty st = true <-> forall s, resolve st h s = None).
Proof.
  intros Ht Hr. destruct (reachable_inv t k st h Ht Hr) as [cs Hinv].
  unfold is_empty. rewrite Nat.eqb_eq, (inv_len _ _ _ _ _ Hinv). split; split.
  - intros Hl c. destruct (get st c) as [s|] eqn:Hc; [| done].
    apply (inv_get _ _ _ _ _ _ _ Hinv) in Hc. apply lookup_lt_Some in Hc. lia.
  - intros Hn. destruct cs as [|c cs]; [done |]. exfalso.
    assert (Hg : get st c = Some (sym_of 0)).
    { apply (inv_get _ _ _ _ _ _ _ Hinv). rewrite to_usize_sym_of by lia. done. }
    by rewrite Hn in Hg.
  - intros Hl s. rewrite (inv_resolve _ _ _ _ _ _ Hinv). apply lookup_ge_None. lia.
  - intros Hn. destruct cs as [|c cs]; [done |]. exfalso.
    specialize (Hn (sym_of 0)). rewrite (inv_resolve _ _ _ _ _ _ Hinv) in Hn.
    rewrite to_usize_sym_of in Hn by lia. discriminate.
Qed.

Lemma is_empty_iff_witness :
  32 <= usize_bits t64_debug /\ reachable t64_debug SymbolU32 ex_st ex_h /\
  (is_empty ex_st = true <-> forall c, get ex_st c = None) /\
  (is_empty ex_st = true <-> forall s, resolve ex_st ex_h s = None).
Proof.
  split; [simpl; lia |]. split; [exact ex_reachable |].
  apply (is_empty_iff t64_debug SymbolU32); [simpl; lia | exact ex_reachable].
Defined.

(** A successful [get_or_intern] leaves [len] unchanged when the string
    was present ([get] returns [Some]) and increases it by one otherwise. *)
Theorem get_or_intern_len (t : Target) (k : SymbolKind) (st st' : StringInterner)
    (h h' : Heap) (val : string) (s : Symbol) :
  get_or_intern t k st val h = Done ((s, st'), h') ->
  len st' = match get st val with Some _ => len st | None => S (len st) end.
Proof.
  unfold get_or_intern, get. destruct (map st !! val) as [[q sym]|] eqn:Hv; simpl.
  - by intros [= <- <- <-].
  - unfold intern, alloc. destruct (make_symbol t k st) as [s0| |]; try discriminate.
    cbn [obind]. intros [= <- <- <-]. unfold len. simpl.
    rewrite length_app. simpl. lia.
Qed.

Lemma get_or_intern_len_witness :
  exists s st' h',
    get_or_intern t64_debug SymbolU32 ex_st "Wind"%string ex_h = Done ((s, st'), h') /\
    len st' = match get ex_st "Wind"%string with Some _ => len ex_st | None => S (len ex_st) end.
Proof.
  do 3 eexists. split; [vm_compute; reflexivity |].
  eapply (get_or_intern_len t64_debug SymbolU32 ex_st _ ex_h _ "Wind"%string). vm_compute; reflexivity.
Defined.

(** [get_or_intern] never changes what an already issued symbol resolves
    to. *)
Theorem get_or_intern_preserves_resolve (t : Target) (k : SymbolKind)
    (st st' : StringInterner) (h h' : Heap) (val : string) (s : Symbol) :
  32 <= usize_bits t -> reachable t k st h ->
  get_or_intern t k st val h = Done ((s, st'), h') ->
  forall s0 c, resolve st h s0 = Some c -> resolve st' h' s0 = Some c.
Proof.
  intros Ht Hr Hg s0 c Hc. destruct (reachable_inv t k st h Ht Hr) as [cs Hinv].
  destruct (get_or_intern_inv _ _ _ _ _ _ _ _ _ Hinv Hg) as (Hinv' & _).
  rewrite (inv_resolve _ _ _ _ _ _ Hinv) in Hc.
  rewrite (inv_resolve _ _ _ _ _ _ Hinv'). by apply add_first_lookup.
Qed.

Lemma get_or_intern_preserves_resolve_witness :
  exists s st' h',
    32 <= usize_bits t64_debug /\ reachable t64_debug SymbolU32 ex_st ex_h /\
    get_or_intern t64_debug SymbolU32 ex_st "Wind"%string ex_h = Done ((s, st'), h') /\
    (forall s0 c, resolve ex_st ex_h s0 = Some c -> resolve st' h' s0 = Some c).
Proof.
  do 3 eexists. split; [simpl; lia |]. split; [exact ex_reachable |].
  split; [vm_compute; reflexivity |].
  eapply (get_or_intern_preserves_resolve t64_debug SymbolU32 ex_st _ ex_h _ "Wind"%string);
    [simpl; lia | exact ex_reachable | vm_compute; reflexivity].
Defined.

(** On any interner the public API can build, [get_or_intern] succeeds (no
    panic, no undefined behaviour) when the string is present or the
    interner holds fewer than [2 ^ w - 1] strings, [w] the base width. *)
Theorem get_or_intern_succeeds (t : Target) (k : SymbolKind) (st : StringInterner)
    (h : Heap) (val : string) :
  32 <= usize_bits t -> reachable t k st h ->
  get st val <> None \/ Z.of_nat (len st) < 2 ^ base_bits t k - 1 ->
  exists s st' h', get_or_intern t k st val h = Done ((s, st'), h').
Proof.
  intros Ht Hr Hc. destruct (reachable_inv t k st h Ht Hr) as [cs Hinv].
  apply (get_or_intern_ok t k st h cs val Ht Hinv).
  pose proof (inv_len _ _ _ _ _ Hinv) as Hl.
  unfold add_first. case_decide as Hin.
  - destruct Hinv as (_ & _ & Hlen & _). exact Hlen.
  - rewrite length_app. simpl. destruct Hc as [Hc | Hc]; [| lia].
    exfalso. destruct (get st val) as [s|] eqn:Hg; [| done].
    apply (inv_get _ _ _ _ _ _ _ Hinv) in Hg. apply Hin.
    by eapply list_elem_of_lookup_2.
Qed.

Lemma get_or_intern_succeeds_witness :
  32 <= usize_bits t64_debug /\ reachable t64_debug SymbolU32 ex_st ex_h /\
  (get ex_st "Wind"%string <> None \/ Z.of_nat (len ex_st) < 2 ^ base_bits t64_debug SymbolU32 - 1) /\
  exists s st' h', get_or_intern t64_debug SymbolU32 ex_st "Wind"%string ex_h = Done ((s, st'), h').
Proof.
  assert (Hc : get ex_st "Wind"%string <> None \/
               Z.of_nat (len ex_st) < 2 ^ base_bits t64_debug SymbolU32 - 1).
  { right. vm_compute. reflexivity. }
  split; [simpl; lia |]. split; [exact ex_reachable |]. split; [exact Hc |].
  apply get_or_intern_succeeds; [simpl; lia | exact ex_reachable | exact Hc].
Defined.

(** Interning a new string into an interner holding [2 ^ w - 1] strings
    never succeeds: a debug build panics; a release build reaches
    [new_unchecked(0)] when the base type is narrower than [usize] and
    panics in [expect] otherwise. *)
Theorem get_or_intern_full (t : Target) (k : SymbolKind) (st : StringInterner)
    (h : Heap) (val : string) :
  32 <= usize_bits t -> get st val = None ->
  Z.of_nat (len st) = 2 ^ base_bits t k - 1 ->
  get_or_intern t k st val h =
    if overflow_checks t then Panic
    else if base_bits t k <? usize_bits t then Undefined else Panic.
Proof.
  intros Ht Hn Hl. pose proof (base_bits_range t k Ht) as Hw.
  assert (Hle : 2 ^ base_bits t k <= 2 ^ usize_bits t) by (apply Z.pow_le_mono_r; lia).
  assert (Hp : 0 < 2 ^ base_bits t k) by (apply Z.pow_pos_nonneg; lia).
  unfold get_or_intern. unfold get in Hn.
  destruct (map st !! val) as [e|]; [discriminate |].
  unfold intern, make_symbol, from_usize, expect_valid_symbol.
  rewrite Hl, try_from_usize_spec by (unfold usize_max; lia).
  destruct (Z.ltb_spec (base_bits t k) (usize_bits t)) as [Hlt|Hge].
  - assert (2 ^ base_bits t k < 2 ^ usize_bits t) by (apply Z.pow_lt_mono_r; lia).
    rewrite (proj2 (Z.eqb_neq _ _)) by (unfold usize_max; lia).
    rewrite Z.mod_small, Z.eqb_refl by lia.
    destruct (overflow_checks t); reflexivity.
  - assert (E : base_bits t k = usize_bits t) by lia.
    rewrite E. unfold usize_max. rewrite Z.eqb_refl.
    destruct (overflow_checks t); reflexivity.
Qed.

Lemma get_or_intern_full_witness :
  exists st h,
    32 <= usize_bits t64_release /\ get st "x"%string = None /\
    Z.of_nat (len st) = 2 ^ base_bits t64_release SymbolU16 - 1 /\
    get_or_intern t64_release SymbolU16 st "x"%string h =
      if overflow_checks t64_release then Panic
      else if base_bits t64_release SymbolU16 <? usize_bits t64_release then Undefined else Panic.
Proof.
  destruct (u16_full_interner t64_release eq_refl) as (st & h & _ & _ & Hl & Hx).
  assert (Hg : get st "x"%string = None) by (unfold get; by rewrite Hx).
  assert (Hl' : Z.of_nat (len st) = 2 ^ base_bits t64_release SymbolU16 - 1)
    by (rewrite Hl; reflexivity).
  exists st, h. split; [simpl; lia |]. split; [exact Hg |]. split; [exact Hl' |].
  apply get_or_intern_full; [simpl; lia | exact Hg | exact Hl'].
Defined.

(** A clone compares equal ([PartialEq]) to the interner it was cloned
    from. *)
Theorem clone_eq (t : Target) (k : SymbolKind) (st st' : StringInterner)
    (h h' : Heap) :
  32 <= usize_bits t -> reachable t k st h ->
  clone t k st h = Done (st', h') -> interner_eq st' st h' = true.
Proof.
  intros Ht Hr Hc. destruct (reachable_inv t k st h Ht Hr) as [cs Hinv].
  destruct (clone_inv _ _ _ _ _ _ _ Hinv Hc) as (Hinv' & Hsub & _).
  pose proof (inv_weaken _ _ _ _ _ _ Hinv Hsub) as Hinvh.
  unfold interner_eq. rewrite (inv_len _ _ _ _ _ Hinv'), (inv_len _ _ _ _ _ Hinvh).
  rewrite Nat.eqb_refl. simpl. apply bool_decide_eq_true.
  destruct Hinv' as (HF' & _), Hinvh as (HF & _).
  by rewrite (contents_Forall2 _ _ _ HF'), (contents_Forall2 _ _ _ HF).
Qed.

Lemma clone_eq_witness :
  exists st' h',
    32 <= usize_bits t64_debug /\ reachable t64_debug SymbolU32 ex_st ex_h /\
    clone t64_debug SymbolU32 ex_st ex_h = Done (st', h') /\ interner_eq st' ex_st h' = true.
Proof.
  do 2 eexists. split; [simpl; lia |]. split; [exact ex_reachable |].
  split; [vm_compute; reflexivity |].
  eapply (clone_eq t64_debug SymbolU32 ex_st); [simpl; lia | exact ex_reachable | vm_compute; reflexivity].
Defined.

Lemma inv_eq_iff (t : Target) (k : SymbolKind) (st1 st2 : StringInterner) (h : Heap)
    (cs1 cs2 : list string) :
  inv_c t k st1 h cs1 -> inv_c t k st2 h cs2 ->
  interner_eq st1 st2 h = true <-> cs1 = cs2.
Proof.
  intros H1 H2. unfold interner_eq.
  rewrite (inv_len _ _ _ _ _ H1), (inv_len _ _ _ _ _ H2).
  destruct H1 as (HF1 & _), H2 as (HF2 & _).
  rewrite (contents_Forall2 _ _ _ HF1), (contents_Forall2 _ _ _ HF2).
  rewrite andb_true_iff, Nat.eqb_eq, bool_decide_eq_true. split.
  - intros [_ E]. apply (inj (fmap Some)) in E. exact E.
  - intros ->. done.
Qed.

(** Two interners the public API can build compare equal ([PartialEq])
    exactly when they resolve every symbol alike. *)
Theorem interner_eq_resolve (t : Target) (k : SymbolKind) (st1 st2 : StringInterner)
    (h : Heap) :
  32 <= usize_bits t -> reachable t k st1 h -> reachable t k st2 h ->
  interner_eq st1 st2 h = true <-> forall s, resolve st1 h s = resolve st2 h s.
Proof.
  intros Ht Hr1 Hr2.
  destruct (reachable_inv t k st1 h Ht Hr1) as [cs1 H1].
  destruct (reachable_inv t k st2 h Ht Hr2) as [cs2 H2].
  rewrite (inv_eq_iff _ _ _ _ _ _ _ H1 H2). split.
  - intros -> s. by rewrite (inv_resolve _ _ _ _ _ _ H1), (inv_resolve _ _ _ _ _ _ H2).
  - intros Hs. apply list_eq. intros i. specialize (Hs (sym_of (Z.of_nat i))).
    rewrite (inv_resolve _ _ _ _ _ _ H1), (inv_resolve _ _ _ _ _ _ H2) in Hs.
    rewrite to_usize_sym_of, Nat2Z.id in Hs by lia. exact Hs.
Qed.

Lemma interner_eq_resolve_witness :
  32 <= usize_bits t64_debug /\ reachable t64_debug SymbolU32 ex_st ex_h /\
  reachable t64_debug SymbolU32 new ex_h /\
  (interner_eq ex_st new ex_h = true <-> forall s, resolve ex_st ex_h s = resolve new ex_h s).
Proof.
  split; [simpl; lia |]. split; [exact ex_reachable |]. split; [apply reach_new |].
  apply (interner_eq_resolve t64_debug SymbolU32); [simpl; lia | exact ex_reachable | apply reach_new].
Defined.

(** Two interners built with [from_iter] compare equal exactly when their
    inputs have the same distinct items in the same first-seen order. *)
Theorem from_iter_eq_first_seen (t : Target) (k : SymbolKind)
    (items1 items2 : list string) (st1 st2 : StringInterner) (h h1 h2 : Heap) :
  32 <= usize_bits t ->
  from_iter t k items1 h = Done (st1, h1) ->
  from_iter t k items2 h1 = Done (st2, h2) ->
  interner_eq st1 st2 h2 = true <-> first_seen items1 = first_seen items2.
Proof.
  intros Ht He1 He2. pose proof (base_bits_range t k Ht) as Hw.
  destruct (extend_done _ _ _ _ _ _ _ _ (inv_new t k h ltac:(lia)) He1) as [I1 _].
  destruct (extend_done _ _ _ _ _ _ _ _ (inv_new t k h1 ltac:(lia)) He2) as [I2 Hs].
  apply (inv_eq_iff t k st1 st2 h2); [| exact I2]. by eapply inv_weaken.
Qed.

Lemma from_iter_eq_first_seen_witness :
  exists st1 st2 h1 h2,
    32 <= usize_bits t64_debug /\
    from_iter t64_debug SymbolU32 ["a"; "b"; "a"]%string ∅ = Done (st1, h1) /\
    from_iter t64_debug SymbolU32 ["a"; "b"; "b"]%string h1 = Done (st2, h2) /\
    (interner_eq st1 st2 h2 = true <->
       first_seen ["a"; "b"; "a"]%string = first_seen ["a"; "b"; "b"]%string).
Proof.
  do 4 eexists. split; [simpl; lia |].
  split; [vm_compute; reflexivity |]. split; [vm_compute; reflexivity |].
  eapply (from_iter_eq_first_seen t64_debug SymbolU32 ["a"; "b"; "a"]%string ["a"; "b"; "b"]%string _ _ ∅); [simpl; lia | vm_compute; reflexivity | vm_compute; reflexivity].
Defined.

(** On any interner the public API can build, [iter] yields [len] pairs;
    the [j]-th pair is the symbol of index [j] with the string it resolves
    to, and a pair [(s, c)] is yielded exactly when [get c] is [Some s]. *)
Theorem iter_pairs (t : Target) (k : SymbolKind) (st : StringInterner) (h : Heap) :
  32 <= usize_bits t -> reachable t k st h ->
  exists l, iter t k st h = Done l /\ length l = len st /\
    (forall j s c, l !! j = Some (s, c) <->
       to_usize s = Z.of_nat j /\ resolve st h s = Some c) /\
    (forall s c, (s, c) ∈ l <-> get st c = Some s).
Proof.
  intros Ht Hr. destruct (reachable_inv t k st h Ht Hr) as [cs Hinv].
  pose proof Hinv as (HF & _ & Hlen & _).
  assert (Hj : forall j s c, pairs_from 0 cs !! j = Some (s, c) <->
              to_usize s = Z.of_nat j /\ resolve st h s = Some c).
  { intros j s c. rewrite pairs_from_lookup, (inv_resolve _ _ _ _ _ _ Hinv). simpl.
    split.
    - intros [-> Hc]. rewrite to_usize_sym_of, Nat2Z.id by lia. done.
    - intros [Hu Hc]. rewrite Hu, Nat2Z.id in Hc. split; [| done].
      rewrite <- Hu. symmetry. apply sym_of_to_usize. }
  exists (pairs_from 0 cs). split; [| split; [| split]].
  - apply iter_from_Forall2; [done | exact HF | simpl; lia].
  - rewrite (inv_len _ _ _ _ _ Hinv). clear. generalize 0%nat.
    induction cs as [|c cs IH]; intros i; simpl; [done | by rewrite IH].
  - exact Hj.
  - intros s c. rewrite list_elem_of_lookup, (get_reachable t k st h c s Ht Hr). split.
    + intros [j Hl]. by apply Hj in Hl as [_ ?].
    + intros Hc. exists (Z.to_nat (to_usize s)). apply Hj.
      rewrite Z2Nat.id by apply to_usize_nonneg. done.
Qed.

Lemma iter_pairs_witness :
  32 <= usize_bits t64_debug /\ reachable t64_debug SymbolU32 ex_st ex_h /\
  exists l, iter t64_debug SymbolU32 ex_st ex_h = Done l /\ length l = len ex_st /\
    (forall j s c, l !! j = Some (s, c) <->
       to_usize s = Z.of_nat j /\ resolve ex_st ex_h s = Some c) /\
    (forall s c, (s, c) ∈ l <-> get ex_st c = Some s).
Proof.
  split; [simpl; lia |]. split; [exact ex_reachable |].
  apply iter_pairs; [simpl; lia | exact ex_reachable].
Defined.

(** On any interner the public API can build, [iter_values] yields [len]
    strings, the [j]-th being what the symbol of index [j] resolves to. *)
Theorem iter_values_resolve (t : Target) (k : SymbolKind) (st : StringInterner) (h : Heap) :
  32 <= usize_bits t -> reachable t k st h ->
  exists vs, iter_values st h = Done vs /\ length vs = len st /\
    forall j, vs !! j = resolve st h (sym_of (Z.of_nat j)).
Proof.
  intros Ht Hr. destruct (reachable_inv t k st h Ht Hr) as [cs Hinv].
  exists cs. split; [| split].
  - destruct Hinv as (HF & _). exact (values_from_Forall2 _ _ _ HF).
  - symmetry. exact (inv_len _ _ _ _ _ Hinv).
  - intros j. rewrite (inv_resolve _ _ _ _ _ _ Hinv), to_usize_sym_of, Nat2Z.id by lia.
    done.
Qed.

Lemma iter_values_resolve_witness :
  32 <= usize_bits t64_debug /\ reachable t64_debug SymbolU32 ex_st ex_h /\
  exists vs, iter_values ex_st ex_h = Done vs /\ length vs = len ex_st /\
    forall j, vs !! j = resolve ex_st ex_h (sym_of (Z.of_nat j)).
Proof.
  split; [simpl; lia |]. split; [exact ex_reachable |].
  apply (iter_values_resolve t64_debug SymbolU32); [simpl; lia | exact ex_reachable].
Defined.

(** [extend] keeps the interned strings and appends the new items, once
    each, in first-seen order. *)
Theorem extend_appends_first_seen (t : Target) (k : SymbolKind)
    (st st' : StringInterner) (h h' : Heap) (vs items : list string) :
  32 <= usize_bits t -> reachable t k st h -> iter_values st h = Done vs ->
  extend t k st items h = Done (st', h') ->
  iter_values st' h' = Done (fold_left add_first items vs).
Proof.
  intros Ht Hr Hv He. destruct (reachable_inv t k st h Ht Hr) as [cs Hinv].
  pose proof Hinv as (HF & _).
  unfold iter_values in Hv. rewrite (values_from_Forall2 _ _ _ HF) in Hv. injection Hv as <-.
  destruct (extend_done _ _ _ _ _ _ _ _ Hinv He) as [(HF' & _) _].
  unfold iter_values. exact (values_from_Forall2 _ _ _ HF').
Qed.

Lemma extend_appends_first_seen_witness :
  exists vs st' h',
    32 <= usize_bits t64_debug /\ reachable t64_debug SymbolU32 ex_st ex_h /\
    iter_values ex_st ex_h = Done vs /\
    extend t64_debug SymbolU32 ex_st ["Fire"; "Wind"; "Wind"]%string ex_h = Done (st', h') /\
    iter_values st' h' = Done (fold_left add_first ["Fire"; "Wind"; "Wind"]%string vs).
Proof.
  do 3 eexists. split; [simpl; lia |]. split; [exact ex_reachable |].
  split; [vm_compute; reflexivity |]. split; [vm_compute; reflexivity |].
  eapply (extend_appends_first_seen t64_debug SymbolU32 ex_st);
    [simpl; lia | exact ex_reachable | vm_compute; reflexivity | vm_compute; reflexivity].
Defined.

(** Every symbol returned by a sequence of [get_or_intern] calls stays
    valid: in the final interner [get] of each item returns its symbol and
    the symbol resolves to the item. *)
Theorem intern_all_symbols_valid (t : Target) (k : SymbolKind) (items : list string) :
  forall st st' h h' syms,
  32 <= usize_bits t -> reachable t k st h ->
  intern_all t k st items h = Done ((syms, st'), h') ->
  Forall2 (fun s x => get st' x = Some s /\ resolve st' h' s = Some x) syms items.
Proof.
  intros st st' h h' syms Ht Hr Hi.
  pose proof (intern_all_reachable t k items _ _ _ _ _ Hr Hi) as Hr'.
  revert st h syms Hr Hi. induction items as [|x items IH]; intros st h syms Hr Hi;
    simpl in Hi.
  - injection Hi as <- _ _. constructor.
  - destruct (get_or_intern t k st x h) as [[[s st1] h1]| |] eqn:Hg; try discriminate.
    cbn [obind] in Hi.
    destruct (intern_all t k st1 items h1) as [[[syms' st2] h2]| |] eqn:Hi';
      try discriminate.
    cbn [obind] in Hi. injection Hi as <- E1 E2. subst st2 h2.
    assert (Hr1 : reachable t k st1 h1) by (by eapply reach_get_or_intern).
    assert (Hx : get st' x = Some s).
    { eapply intern_all_get; [exact Hi' |].
      destruct (get_or_intern_lookup _ _ _ _ _ _ _ _ Hg) as [[q Hq] _].
      unfold get. by rewrite Hq. }
    constructor; [| exact (IH _ _ _ Hr1 Hi')].
    split; [exact Hx |]. by apply (get_reachable t k st' h' x s Ht Hr').
Qed.

Lemma intern_all_symbols_valid_witness :
  exists syms st' h',
    32 <= usize_bits t64_debug /\ reachable t64_debug SymbolU16 new ∅ /\
    intern_all t64_debug SymbolU16 new ["Elephant"; "Tiger"; "Horse"; "Tiger"]%string ∅
      = Done ((syms, st'), h') /\
    Forall2 (fun s x => get st' x = Some s /\ resolve st' h' s = Some x) syms
      ["Elephant"; "Tiger"; "Horse"; "Tiger"]%string.
Proof.
  do 3 eexists. split; [simpl; lia |]. split; [apply reach_new |].
  split; [vm_compute; reflexivity |].
  eapply (intern_all_symbols_valid t64_debug SymbolU16 ["Elephant"; "Tiger"; "Horse"; "Tiger"]%string new _ ∅); [simpl; lia | apply reach_new | vm_compute; reflexivity].
Defined.
